(** * SOP generator: the step table of [create_word_doc_from_template]

    A shallow embedding of the step → table compiler of
    [backend/app.py] ([create_word_doc_from_template]): the row renderer,
    the SLA merge-range planner, the merge applier and the structural
    checks of the document build, with the properties of the design
    specification proved about them. *)

From stdpp Require Import base numbers option list strings pretty gmap.

Local Open Scope string_scope.
Local Open Scope list_scope.
Local Open Scope nat_scope.

(** * Python values used by the step records *)

(** A value read with [dict.get]: [None] is Python's [None] (the key is
    absent or holds [None]); a string is truthy when it is not empty. *)
Definition truthy (v : option string) : bool :=
  match v with
  | Some s => negb (String.eqb s "")
  | None => false
  end.

(** Python's [or] on a string-or-None value with a string default. *)
Definition py_or (v : option string) (d : string) : string :=
  match v with
  | Some s => if String.eqb s "" then d else s
  | None => d
  end.

(** * Step model *)

Module StepModel.

(** One entry of [step['paragraphs']]. *)
Record para_data := ParaData {
  text : string;
  alignment : string;
  font_size : Z;
  bold : bool
}.

(** One entry of [context['steps']].  [ref] and [paragraphs] are read by
    subscript, the other keys with [get]; [raci] maps a role name to its
    display value, which may be [None]. *)
Record step := Step {
  ref : string;
  paragraphs : list para_data;
  raci : gmap string (option string);
  is_gateway : bool;
  sla : option string;
  sla_group : option string
}.

End StepModel.
Export StepModel.

(** * While loops *)

(** [while fuel cond body s] runs [body] while [cond] holds, at most
    [fuel] times.  Every loop of the planner advances an index towards
    [len(steps)], so [len(steps)] rounds are always enough
    ([while_fuel_irrel] and the planner's termination lemmas below). *)
Fixpoint while {S : Type} (fuel : nat) (cond : S → bool) (body : S → S) (s : S) : S :=
  match fuel with
  | O => s
  | Datatypes.S fuel' => if cond s then while fuel' cond body (body s) else s
  end.

(** [for_each f a l]: a [for] loop over [l] whose body may raise; the
    first exception ends the loop and is the result. *)
Fixpoint for_each {A B : Type} (f : A → B → option A) (a : A) (l : list B) : option A :=
  match l with
  | [] => Some a
  | x :: l' => a' ← f a x; for_each f a' l'
  end.

(** * Merge-range planner *)

Module Planner.

(** A merge range [(start_step_idx, end_step_idx, sla_value)]. *)
Definition range : Type := nat * nat * option string.

Definition r_start (r : range) : nat := r.1.1.
Definition r_end (r : range) : nat := r.1.2.
Definition r_value (r : range) : option string := r.2.

(** [j < len(steps) and steps[j].get('is_gateway', False)] *)
Definition gateway_at (steps : list step) (j : nat) : bool :=
  match steps !! j with
  | Some s => is_gateway s
  | None => false
  end.

(** [j < len(steps) and steps[j].get('sla_group') == sla_group] *)
Definition group_at (steps : list step) (g : option string) (j : nat) : bool :=
  match steps !! j with
  | Some s => bool_decide (sla_group s = g)
  | None => false
  end.

(** The loop [while j < len(steps) and steps[j].get('is_gateway', False):
    merge_end = j; j += 1] on the state [(merge_end, j)]. *)
Definition absorb_gateways (steps : list step) (st : nat * nat) : nat * nat :=
  while (length steps)
    (λ st, gateway_at steps st.2)
    (λ st, (st.2, S st.2))
    st.

(** The loop of the group branch: [while j < len(steps) and
    steps[j].get('sla_group') == sla_group: merge_end = j; j += 1;] followed
    by the inner gateway loop. *)
Definition absorb_group (steps : list step) (g : option string) (st : nat * nat) : nat * nat :=
  while (length steps)
    (λ st, group_at steps g st.2)
    (λ st, absorb_gateways steps (st.2, S st.2))
    st.

(** The loop of the last branch: [while idx < len(steps) and
    steps[idx].get('is_gateway', False): idx += 1]. *)
Definition skip_gateways (steps : list step) (idx : nat) : nat :=
  while (length steps) (gateway_at steps) S idx.

(** One round of the outer loop on the state [(idx, sla_merges)]. *)
Definition plan_body (steps : list step) (st : nat * list range) : nat * list range :=
  let idx := st.1 in
  let sla_merges := st.2 in
  match steps !! idx with
  | None => st
  | Some step_item =>
      let sla := sla step_item in
      let sla_group := sla_group step_item in
      if truthy sla && negb (truthy sla_group) then
        let merge_start := idx in
        let '(merge_end, j) := absorb_gateways steps (idx, S idx) in
        (j, sla_merges ++ [(merge_start, merge_end, sla)])
      else if truthy sla_group then
        let merge_start := idx in
        let group_sla := sla in
        let '(merge_end, j) := absorb_gateways steps (idx, S idx) in
        let '(merge_end, j) := absorb_group steps sla_group (merge_end, j) in
        (j, sla_merges ++ [(merge_start, merge_end, group_sla)])
      else
        (skip_gateways steps (S idx), sla_merges)
  end.

(** The index at which the round started at [idx] leaves the scan, and
    the ranges that round appends. *)
Definition next (steps : list step) (idx : nat) : nat :=
  (plan_body steps (idx, [])).1.
Definition emit (steps : list step) (idx : nat) : list range :=
  (plan_body steps (idx, [])).2.

(** [while idx < len(steps)] *)
Definition plan_cond (steps : list step) (st : nat * list range) : bool :=
  bool_decide (st.1 < length steps).

(** The outer loop, started at index [idx] with the ranges [acc]. *)
Definition plan_loop (steps : list step) (idx : nat) (acc : list range) : nat * list range :=
  while (length steps) (plan_cond steps) (plan_body steps) (idx, acc).

(** [sla_merges] after the planner's loop. *)
Definition plan (steps : list step) : list range :=
  (plan_loop steps 0 []).2.

(** The ranges the scan emits when it stands at index [idx]. *)
Definition plan_from (steps : list step) (idx : nat) : list range :=
  (plan_loop steps idx []).2.

(** ** Notions used to state the planner's properties *)

(** Step index [k] lies inside the range [r] (both ends inclusive). *)
Definition covers (r : range) (k : nat) : Prop :=
  r_start r ≤ k ≤ r_end r.

(** The indices at which the outer loop stands at the head of a round. *)
Inductive reaches (steps : list step) : nat → Prop :=
| reaches_start : reaches steps 0
| reaches_next idx :
    reaches steps idx → idx < length steps → reaches steps (next steps idx).

(** Ranges in increasing order, each starting after the one before
    ended, none starting before [lo]. *)
Inductive chain : nat → list range → Prop :=
| chain_nil lo : chain lo []
| chain_cons lo s e v rs :
    lo ≤ s → s ≤ e → chain (S e) rs → chain lo ((s, e, v) :: rs).

(** The range starts at a step that is not a gateway (unless it starts the
    sequence), takes its value from that step, holds only gateways and
    members of the starting step's group behind it, and stops before a
    step that is not a gateway. *)
Definition range_ok (steps : list step) (r : range) : Prop :=
  r_start r ≤ r_end r < length steps
  ∧ (r_start r = 0 ∨ gateway_at steps (r_start r) = false)
  ∧ gateway_at steps (S (r_end r)) = false
  ∧ ∃ s, steps !! r_start r = Some s ∧ r_value r = sla s
      ∧ (truthy (sla s) = true ∨ truthy (sla_group s) = true)
      ∧ (∀ k, r_start r < k ≤ r_end r →
           gateway_at steps k = true
           ∨ (truthy (sla_group s) = true
              ∧ group_at steps (sla_group s) k = true)).

(** What the gateway loop establishes, started at [(e, j)]. *)
Definition gateways_post (steps : list step) (e j : nat) (r : nat * nat) : Prop :=
  j ≤ r.2 ∧ (j ≤ length steps → r.2 ≤ length steps)
  ∧ (S e = j → S r.1 = r.2)
  ∧ (∀ k, j ≤ k < r.2 → gateway_at steps k = true).

(** What the group loop establishes, started at [(e, j)] with
    [S e = j] and [steps[j]] not a gateway. *)
Definition group_post (steps : list step) (g : option string) (j : nat) (r : nat * nat) : Prop :=
  j ≤ r.2 ∧ (j ≤ length steps → r.2 ≤ length steps)
  ∧ S r.1 = r.2
  ∧ gateway_at steps r.2 = false
  ∧ (∀ k, j ≤ k < r.2 →
       gateway_at steps k = true ∨ group_at steps g k = true).

(** The step with its [sla] replaced. *)
Definition set_sla (v : option string) (s : step) : step :=
  Step (ref s) (paragraphs s) (raci s) (is_gateway s) v (sla_group s).

End Planner.

(** * The document model *)

(** The part of a python-docx document that [create_word_doc_from_template]
    reads and writes: tables of rows of cells; a cell holds paragraphs of
    runs and its [w:tcPr] properties (shading and vertical merge). *)

Module Docx.

(** [WD_ALIGN_PARAGRAPH] *)
Inductive align := LEFT | CENTER | JUSTIFY.

(** A run: its text and the font attributes the code sets ([Pt] sizes in
    points, [RGBColor] as three numbers). *)
Record run := Run {
  run_text : string;
  font_name : option string;
  font_pt : option Z;
  font_bold : option bool;
  font_rgb : option (Z * Z * Z)
}.

Record paragraph := Paragraph {
  p_alignment : option align;
  p_runs : list run
}.

(** The children of [w:tcPr] the code touches: [w:shd] with its fill and
    val, and [w:vMerge] with its optional val. *)
Inductive tc_prop :=
| Shd (fill val : string)
| VMerge (val : option string).

Record cell := Cell {
  c_paragraphs : list paragraph;
  c_tcPr : list tc_prop
}.

Abbreviation row := (list cell).

(** A table: the number of grid columns, which is the number of cells
    [add_row] gives a new row, and its rows. *)
Record table := Table {
  t_grid : nat;
  t_rows : list row
}.

(** The document: its tables, and the font of the default paragraph
    style, which [para.style.font] writes to. *)
Record document := Document {
  d_tables : list table;
  d_style_font : option (string * Z)
}.

Definition avenir : string := "Avenir LT Std 45 Book".

Definition is_shd (p : tc_prop) : bool :=
  match p with Shd _ _ => true | VMerge _ => false end.

(** A run as [add_run(text)] creates it. *)
Definition plain_run (t : string) : run := Run t None None None None.

(** [run.text = t] *)
Definition set_run_text (r : run) (t : string) : run :=
  Run t (font_name r) (font_pt r) (font_bold r) (font_rgb r).

(** [cell.text = t]: the content becomes one paragraph with one run. *)
Definition set_text (c : cell) (t : string) : cell :=
  Cell [Paragraph None [plain_run t]] (c_tcPr c).

Definition paragraph_text (p : paragraph) : string :=
  String.concat "" (run_text <$> p_runs p).

(** [cell.text]: the paragraphs' texts, one per line. *)
Definition cell_text (c : cell) : string :=
  String.concat (String (Ascii.ascii_of_nat 10) "") (paragraph_text <$> c_paragraphs c).

(** [para.alignment = a] *)
Definition set_alignment (a : align) (p : paragraph) : paragraph :=
  Paragraph (Some a) (p_runs p).

(** [para.add_run(...)] followed by the font assignments. *)
Definition add_run (p : paragraph) (r : run) : paragraph :=
  Paragraph (p_alignment p) (p_runs p ++ [r]).

(** [cell.paragraphs[0]] written back after the changes to it. *)
Definition set_para0 (c : cell) (p : paragraph) : cell :=
  Cell (<[0 := p]> (c_paragraphs c)) (c_tcPr c).

(** Remove every [w:shd] of the cell and append a new one. *)
Definition shade (fill : string) (c : cell) : cell :=
  Cell (c_paragraphs c)
       (filter (λ p, is_shd p = false) (c_tcPr c) ++ [Shd fill "clear"]).

(** The cell of a row made by [table.add_row()]: one empty paragraph. *)
Definition new_cell : cell := Cell [Paragraph None []] [].

(** The cells of the row [table.add_row()] appends. *)
Definition new_row (t : table) : row := replicate (t_grid t) new_cell.

(** Delete the rows [len-1 .. keep], last first. *)
Definition clear_rows (keep : nat) (t : table) : table :=
  Table (t_grid t) (take keep (t_rows t)).

Definition append_row (t : table) (r : row) : table :=
  Table (t_grid t) (t_rows t ++ [r]).

End Docx.

(** * Row renderer *)

Module Renderer.
Import Docx.

(** [raci_map = {2: 'responsible', 3: 'accountable', 4: 'consulted',
    5: 'informed'}] *)
Definition raci_map (i : nat) : option string :=
  match i with
  | 2 => Some "responsible"
  | 3 => Some "accountable"
  | 4 => Some "consulted"
  | 5 => Some "informed"
  | _ => None
  end.

(** [raci.get(raci_map[i], 'N/A') or 'N/A'] *)
Definition raci_value (raci : gmap string (option string)) (key : string) : string :=
  py_or (default (Some "N/A") (raci !! key)) "N/A".

(** Cell 0: the reference number. *)
Definition render_ref (cells : row) (stp : step) : option row :=
  ref_cell ← cells !! 0;
  let ref_cell := set_text ref_cell "" in
  ref_para ← c_paragraphs ref_cell !! 0;
  let ref_para := set_alignment CENTER ref_para in
  let ref_para :=
    if negb (String.eqb (ref stp) "") then
      add_run ref_para
        (Run (ref stp) (Some avenir) (Some 14%Z) (Some true) (Some (255, 0, 0)%Z))
    else ref_para in
  Some (<[0 := set_para0 ref_cell ref_para]> cells).

(** The alignment chosen for one paragraph of the description. *)
Definition para_alignment (para_data : StepModel.para_data) : align :=
  if String.eqb (alignment para_data) "CENTER" then CENTER
  else if String.eqb (alignment para_data) "JUSTIFY" then JUSTIFY
  else LEFT.

(** The paragraph one round of [for para_data in step['paragraphs']]
    builds: its alignment, and a run when there is text. *)
Definition description_paragraph (para_data : StepModel.para_data) : paragraph :=
  let para := Paragraph None [] in
  let para := set_alignment (para_alignment para_data) para in
  if negb (String.eqb (text para_data) "") then
    add_run para
      (Run (text para_data) (Some avenir) (Some (font_size para_data))
           (Some (bold para_data)) (Some (0, 0, 0)%Z))
  else para.

(** [para = desc_cell.add_paragraph()] and the changes to [para]. *)
Definition add_description_paragraph (desc_cell : cell)
    (para_data : StepModel.para_data) : cell :=
  Cell (c_paragraphs desc_cell ++ [description_paragraph para_data])
       (c_tcPr desc_cell).

(** Cell 1: the description, one paragraph per entry. *)
Definition render_description (cells : row) (stp : step) : option row :=
  desc_cell ← cells !! 1;
  let desc_cell := set_text desc_cell "" in
  let desc_cell := Cell (drop 1 (c_paragraphs desc_cell)) (c_tcPr desc_cell) in
  let desc_cell := foldl add_description_paragraph desc_cell (paragraphs stp) in
  Some (<[1 := desc_cell]> cells).

(** One round of [for i in range(2, 7)]. *)
Definition render_tail_cell (stp : step) (cells : row) (i : nat) : option row :=
  c ← cells !! i;
  let c := set_text c "" in
  para ← c_paragraphs c !! 0;
  let para := set_alignment CENTER para in
  let para :=
    if i =? 6 then add_run para (Run "" (Some avenir) (Some 9%Z) None None)
    else
      match raci_map i with
      | Some key =>
          add_run para
            (Run (raci_value (raci stp) key) (Some avenir) (Some 9%Z) None None)
      | None => para
      end in
  Some (<[i := set_para0 c para]> cells).

(** The gateway shading of every cell but the SLA cell. *)
Definition shade_gateway (cells : row) : row :=
  imap (λ cell_idx c, if cell_idx =? 6 then c else shade "D9D9D9" c) cells.

(** The body of [for step in steps], on the cells of the new row. *)
Definition render_row (cells : row) (stp : step) : option row :=
  cells ← render_ref cells stp;
  cells ← render_description cells stp;
  cells ← for_each (render_tail_cell stp) cells [2; 3; 4; 5; 6];
  Some (if is_gateway stp then shade_gateway cells else cells).

(** One round of the loop over the steps: add a row and fill it. *)
Definition render_step (t : table) (stp : step) : option table :=
  r ← render_row (new_row t) stp;
  Some (append_row t r).

(** [for step in steps: ...] *)
Definition render_steps (t : table) (steps : list step) : option table :=
  for_each render_step t steps.

(** ** Closed forms of the rendered cells

    What the loop body leaves in each cell, as a function of the step and
    of the cell [add_row] made ([render_row_closed] below proves that
    [render_row] computes exactly these). *)

Definition centered : paragraph :=
  set_alignment CENTER (Paragraph None [plain_run ""]).

Definition ref_cell (stp : step) (c : cell) : cell :=
  set_para0 (set_text c "")
    (if negb (String.eqb (ref stp) "") then
       add_run centered
         (Run (ref stp) (Some avenir) (Some 14%Z) (Some true) (Some (255, 0, 0)%Z))
     else centered).

Definition description_cell (stp : step) (c : cell) : cell :=
  foldl add_description_paragraph (Cell [] (c_tcPr c)) (paragraphs stp).

Definition raci_cell (stp : step) (key : string) (c : cell) : cell :=
  set_para0 (set_text c "")
    (add_run centered
       (Run (raci_value (raci stp) key) (Some avenir) (Some 9%Z) None None)).

Definition sla_cell (c : cell) : cell :=
  set_para0 (set_text c "")
    (add_run centered (Run "" (Some avenir) (Some 9%Z) None None)).

Definition rendered_cells (stp : step) (cells : row) : option row :=
  match cells with
  | c0 :: c1 :: c2 :: c3 :: c4 :: c5 :: c6 :: rest =>
      Some (ref_cell stp c0 :: description_cell stp c1
            :: raci_cell stp "responsible" c2 :: raci_cell stp "accountable" c3
            :: raci_cell stp "consulted" c4 :: raci_cell stp "informed" c5
            :: sla_cell c6 :: rest)
  | _ => None
  end.

End Renderer.

(** * Merge applier *)

Module Applier.
Import Docx Planner.

(** The body of the inner loop on the SLA cell of one row: shade it, mark
    the vertical merge when the range has several rows, and write the
    value into the first run of the range's first row.  python-docx's
    [run.text = v] iterates over [v], so [None] raises. *)
Definition merge_cell (merge_start merge_end : nat) (sla_value : option string)
    (row_offset : nat) (sla_cell : cell) : option cell :=
  let sla_cell := shade "F2F2F2" sla_cell in
  let sla_cell :=
    if bool_decide (merge_start < merge_end) then
      let vMerge :=
        VMerge (if bool_decide (row_offset = merge_start)
                then Some "restart" else None) in
      Cell (c_paragraphs sla_cell) (c_tcPr sla_cell ++ [vMerge])
    else sla_cell in
  if bool_decide (row_offset = merge_start) then
    p ← c_paragraphs sla_cell !! 0;
    match p_runs p with
    | [] => Some sla_cell
    | r0 :: rs =>
        t ← sla_value;
        Some (set_para0 sla_cell (Paragraph (p_alignment p) (set_run_text r0 t :: rs)))
    end
  else Some sla_cell.

(** [sla_cell = table.rows[table_row_idx].cells[6]] and the changes to it. *)
Definition merge_row (merge_start merge_end : nat) (sla_value : option string)
    (row_offset : nat) (r : row) : option row :=
  sla_cell ← r !! 6;
  sla_cell ← merge_cell merge_start merge_end sla_value row_offset sla_cell;
  Some (<[6 := sla_cell]> r).

(** [for row_offset in range(merge_start, merge_end + 1)], with its
    [break] at the first row index past the table. *)
Fixpoint apply_range_rows (merge_start merge_end : nat) (sla_value : option string)
    (offsets : list nat) (rows : list row) : option (list row) :=
  match offsets with
  | [] => Some rows
  | row_offset :: offsets' =>
      let table_row_idx := row_offset + 1 in
      if bool_decide (length rows ≤ table_row_idx) then Some rows
      else
        r ← rows !! table_row_idx;
        r ← merge_row merge_start merge_end sla_value row_offset r;
        apply_range_rows merge_start merge_end sla_value offsets'
          (<[table_row_idx := r]> rows)
  end.

Definition apply_range (rows : list row) (m : range) : option (list row) :=
  let '(merge_start, merge_end, sla_value) := m in
  apply_range_rows merge_start merge_end sla_value
    (seq merge_start (merge_end + 1 - merge_start)) rows.

(** [for merge_start, merge_end, sla_value in sla_merges] *)
Definition apply_merges (sla_merges : list range) (rows : list row) : option (list row) :=
  for_each apply_range rows sla_merges.

(** ** Notions used to state the applier's properties *)

(** The SLA cell as the renderer leaves it: no cell properties, one
    paragraph, at least one run, no text. *)
Definition blank_sla_cell (c : cell) : bool :=
  match c_tcPr c, c_paragraphs c with
  | [], [p] =>
      match p_runs p with
      | [] => false
      | _ => forallb (λ r, String.eqb (run_text r) "") (p_runs p)
      end
  | _, _ => false
  end.

Definition sla_ready (r : row) : bool :=
  match r !! 6 with
  | Some c => blank_sla_cell c
  | None => false
  end.

(** Two rows that agree in length and outside the SLA column. *)
Definition same_but_sla (r r' : row) : Prop :=
  length r' = length r ∧ ∀ c, c ≠ 6 → r' !! c = r !! c.

(** Two tables' rows that agree in number, in the header row and, row by
    row, outside the SLA column. *)
Definition rows_same_but_sla (rows rows' : list row) : Prop :=
  length rows' = length rows
  ∧ rows' !! 0 = rows !! 0
  ∧ ∀ i r r', rows !! i = Some r → rows' !! i = Some r' → same_but_sla r r'.

(** The cell properties the applier leaves on the SLA cell of step
    [row_offset] of a range. *)
Definition merged_tcPr (merge_start merge_end row_offset : nat) : list tc_prop :=
  Shd "F2F2F2" "clear"
  :: (if bool_decide (merge_start < merge_end) then
        [VMerge (if bool_decide (row_offset = merge_start)
                 then Some "restart" else None)]
      else []).

End Applier.

(** * Document assembler *)

Module Build.
Import Docx Planner Renderer Applier.

(** The records of the auxiliary lists; a field is [None] when its key is
    absent. *)
Record abbreviation := Abbreviation {
  term : option string;
  definition : option string
}.

Record reference := Reference {
  id : option string;
  title : option string
}.

Record policy_item := PolicyItem {
  policy : option string
}.

(** The keys of [context] the function reads. *)
Record context := Context {
  steps : list step;
  abbreviations_list : list abbreviation;
  references_list : list reference;
  general_policies_list : list policy_item
}.

(** The font fix of the front-matter tables. *)
Definition fix_run (r : run) : run :=
  Run (run_text r) (Some avenir) (Some 12%Z) (font_bold r) (font_rgb r).

Definition fix_cell (c : cell) : cell :=
  Cell ((λ p, Paragraph (p_alignment p) (fix_run <$> p_runs p)) <$> c_paragraphs c)
       (c_tcPr c).

Definition fix_table (t : table) : table :=
  Table (t_grid t) ((λ r : row, fix_cell <$> r) <$> t_rows t).

(** [for table_idx in [0, 1, 2, 3, 4, 5]: if len(doc.tables) > table_idx] *)
Definition fix_front_matter (tables : list table) : list table :=
  foldl (λ ts table_idx,
           if bool_decide (table_idx < length ts)
           then alter fix_table table_idx ts else ts)
        tables [0; 1; 2; 3; 4; 5].

(** The format loop over the cells of a two-column row. *)
Definition format_cell (bold_first : bool) (cells : row) (idx : nat) : option row :=
  c ← cells !! idx;
  para ← c_paragraphs c !! 0;
  match p_runs para with
  | [] => Some cells
  | r0 :: rs =>
      let r0 :=
        Run (run_text r0) (Some avenir) (Some 12%Z)
            (if bold_first && (idx =? 0) then Some true else font_bold r0)
            (font_rgb r0) in
      Some (<[idx := set_para0 c (Paragraph (p_alignment para) (r0 :: rs))]> cells)
  end.

(** A new row of the abbreviation or reference table with its two texts. *)
Definition pair_row (t : table) (a b : string) (bold_first : bool) : option table :=
  let cells := new_row t in
  c0 ← cells !! 0;
  let cells := <[0 := set_text c0 a]> cells in
  c1 ← cells !! 1;
  let cells := <[1 := set_text c1 b]> cells in
  cells ← for_each (format_cell bold_first) cells (seq 0 (length cells));
  Some (append_row t cells).

(** Tables 3 and 4: keep the title and header rows, then one row per
    record, or one "N/A" row. *)
Definition populate_pairs (t : table) (records : list (string * string)) : option table :=
  let t := clear_rows 2 t in
  match records with
  | [] => pair_row t "N/A" "N/A" false
  | _ => for_each (λ t rec, pair_row t rec.1 rec.2 true) t records
  end.

Definition abbreviation_pair (a : abbreviation) : string * string :=
  (default "" (term a), default "" (definition a)).

Definition reference_pair (r : reference) : string * string :=
  (default "" (id r), default "" (title r)).

(** A new row of the policies table. *)
Definition policy_row (t : table) (label txt : string) : option table :=
  let cells := new_row t in
  ref_cell ← cells !! 0;
  let ref_cell := set_text ref_cell "" in
  ref_para ← c_paragraphs ref_cell !! 0;
  let ref_para := set_alignment CENTER ref_para in
  let ref_para :=
    add_run ref_para
      (Run label (Some avenir) (Some 14%Z) (Some true) (Some (255, 0, 0)%Z)) in
  let cells := <[0 := set_para0 ref_cell ref_para]> cells in
  text_cell ← cells !! 1;
  let text_cell := set_text text_cell "" in
  text_para ← c_paragraphs text_cell !! 0;
  let text_para :=
    add_run text_para (Run txt (Some avenir) (Some 12%Z) (Some true) None) in
  let cells := <[1 := set_para0 text_cell text_para]> cells in
  Some (append_row t cells).

(** Table 7: keep the header row, then one numbered row per policy, or
    one "N/A" row. *)
Definition populate_policies (t : table) (policies : list policy_item) : option table :=
  let t := clear_rows 1 t in
  match policies with
  | [] => policy_row t "N/A" "N/A"
  | _ =>
      for_each
        (λ t p, policy_row t (pretty p.1) (default "" (policy p.2)))
        t (imap (λ idx p, (S idx, p)) policies)
  end.

(** [if len(doc.tables) > i: ...] on table [i]. *)
Definition on_table (i : nat) (f : table → option table) (tables : list table) : option (list table) :=
  match tables !! i with
  | Some t => t' ← f t; Some (<[i := t']> tables)
  | None => Some tables
  end.

(** The process table: clear the data rows, render the steps, plan the
    merge ranges and apply them. *)
Definition process_table (t : table) (steps : list step) : option table :=
  let t := clear_rows 1 t in
  t ← render_steps t steps;
  let sla_merges := plan steps in
  rows ← apply_merges sla_merges (t_rows t);
  Some (Table (t_grid t) rows).

(** [create_word_doc_from_template], from the document rendered from the
    template on; [None] is the function's [return None]. *)
Definition create_word_doc_from_template (doc : document) (context : context) : option document :=
  if bool_decide (d_tables doc = []) then None
  else
    let tables := fix_front_matter (d_tables doc) in
    tables ← on_table 3
      (λ t, populate_pairs t (abbreviation_pair <$> abbreviations_list context))
      tables;
    tables ← on_table 4
      (λ t, populate_pairs t (reference_pair <$> references_list context))
      tables;
    table ← tables !! 6;
    table ← process_table table (steps context);
    let tables := <[6 := table]> tables in
    tables ← on_table 7
      (λ t, populate_policies t (general_policies_list context))
      tables;
    let style_font :=
      match steps context with
      | [] => d_style_font doc
      | _ => Some (avenir, 9%Z)
      end in
    Some (Document tables style_font).

End Build.

(** * Step sequences used in the examples *)

Module Samples.

Definition mk (gw : bool) (s g : option string) : step :=
  Step "" [] ∅ gw s g.

Definition task_sla (v : string) : step := mk false (Some v) None.
Definition task_group (g v : string) : step := mk false (Some v) (Some g).
Definition gateway : step := mk true None None.
Definition plain : step := mk false None None.

(** [A(sla="4h"), gateway, gateway, B(no sla)] *)
Definition own_sla_run : list step :=
  [task_sla "4h"; gateway; gateway; plain].

(** Group "G" with value "24h" at indices 2 and 4, a gateway at 3. *)
Definition group_run : list step :=
  [plain; plain; task_group "G" "24h"; gateway; task_group "G" "24h"].

(** A gateway that carries its own SLA and opens the sequence. *)
Definition leading_gateway : list step :=
  [mk true (Some "4h") None; task_sla "1h"].

(** A group whose members disagree on the value; the first has none. *)
Definition mixed_group : list step :=
  [mk false None (Some "G"); task_group "G" "24h"; task_group "G" "48h"].

(** A step with an alignment the renderer does not know and with missing,
    [None] and empty RACI values. *)
Definition malformed_step : step :=
  Step "1.1" [ParaData "Check the request" "RIGHT" 11%Z false]
       (<["responsible" := Some "Clerk"]>
          (<["accountable" := None]> (<["consulted" := Some ""]> ∅)))
       false None None.

(** A process table with its header row, seven columns wide. *)
Definition header_cell (t : string) : Docx.cell :=
  Docx.Cell [Docx.Paragraph None [Docx.plain_run t]] [].

Definition process_template : Docx.table :=
  Docx.Table 7 [header_cell <$> ["Ref"; "Process"; "R"; "A"; "C"; "I"; "SLA"];
                replicate 7 Docx.new_cell].

(** The rows of the process table after the steps of [own_sla_run] were
    rendered, before the merge ranges are applied. *)
Definition rendered_rows : list (list Docx.cell) :=
  default [] (Docx.t_rows <$>
              Renderer.render_steps (Docx.clear_rows 1 process_template) own_sla_run).

(** A template: eight tables, each with a header row; the process table
    is table 6. *)
Definition simple_table (n : nat) : Docx.table :=
  Docx.Table n [replicate n (header_cell "h")].

Definition template_doc : Docx.document :=
  Docx.Document
    [simple_table 2; simple_table 1; simple_table 1; simple_table 2;
     simple_table 2; simple_table 2; process_template; simple_table 2]
    None.

(** The same template with a process table of five columns only. *)
Definition narrow_doc : Docx.document :=
  Docx.Document
    [simple_table 2; simple_table 1; simple_table 1; simple_table 2;
     simple_table 2; simple_table 2; simple_table 5; simple_table 2]
    None.

Definition empty_context : Build.context := Build.Context [] [] [] [].

Definition sample_context : Build.context :=
  Build.Context own_sla_run [Build.Abbreviation (Some "SLA") None] [] [].

End Samples.

(** * Text helpers *)

Module Text.


End Text.

(** * Request handlers *)

(** The pure parts of the Flask handlers that call the document build:
    [set_user], [get_user] and the assembly of the metadata in
    [generate_sop].  A Python string is a [string] of code points 0..255. *)

Module Handlers.

Definition code (c : Ascii.ascii) : nat := Ascii.nat_of_ascii c.

(** [str.isspace] on one character. *)
Definition is_space (c : Ascii.ascii) : bool :=
  let n := code c in
  ((9 <=? n) && (n <=? 13)) || ((28 <=? n) && (n <=? 31))
  || (n =? 32) || (n =? 133) || (n =? 160).

(** [str.lower] on one character. *)
Definition lower_char (c : Ascii.ascii) : Ascii.ascii :=
  let n := code c in
  if ((65 <=? n) && (n <=? 90)) || ((192 <=? n) && (n <=? 214))
     || ((216 <=? n) && (n <=? 222))
  then Ascii.ascii_of_nat (n + 32) else c.

(** [s.lower()] *)
Fixpoint lower (s : string) : string :=
  match s with
  | EmptyString => EmptyString
  | String c r => String (lower_char c) (lower r)
  end.

(** [s.lstrip()], [s.rstrip()] and [s.strip()] *)
Fixpoint lstrip (s : string) : string :=
  match s with
  | EmptyString => EmptyString
  | String c r => if is_space c then lstrip r else s
  end.

Fixpoint rstrip (s : string) : string :=
  match s with
  | EmptyString => EmptyString
  | String c r =>
      match rstrip r with
      | EmptyString => if is_space c then EmptyString else String c EmptyString
      | r' => String c r'
      end
  end.

Definition strip (s : string) : string := lstrip (rstrip s).

(** Truth value of a string: it is not empty. *)
Definition nonempty (s : string) : bool := negb (String.eqb s "").


(** ** [set_user] and [get_user] *)

(** The character class [[a-zA-Z0-9_]]. *)
Definition is_word_char (c : Ascii.ascii) : bool :=
  let n := code c in
  ((97 <=? n) && (n <=? 122)) || ((65 <=? n) && (n <=? 90))
  || ((48 <=? n) && (n <=? 57)) || (n =? 95).

(** [[a-zA-Z0-9_]*$]: Python's [$] matches at the end of the string and
    also before a line feed that ends the string. *)
Fixpoint match_word_tail (s : string) : bool :=
  match s with
  | EmptyString => true
  | String c r =>
      if is_word_char c then match_word_tail r
      else (code c =? 10) && String.eqb r ""
  end.

(** [re.match(r'^[a-zA-Z0-9_]+$', s)] *)
Definition match_user_id (s : string) : bool :=
  match s with
  | EmptyString => false
  | String c r => is_word_char c && match_word_tail r
  end.

(** What a handler returns: the status and, of the JSON body, the error
    message or the user id. *)
Inductive reply :=
| Success (user_id : string)
| Failure (status : nat) (error : string).

(** [set_user]: the reply and the session after the call. *)
Definition set_user (data session : gmap string string)
    : reply * gmap string string :=
  let user_id := lower (strip (default "" (data !! "user_id"))) in
  if negb (nonempty user_id) then
    (Failure 400 "User ID required", session)
  else if negb (match_user_id user_id) then
    (Failure 400 "User ID can only contain letters, numbers, and underscores",
     session)
  else
    (Success user_id, <["user_id" := user_id]> session).



(** The string does not end in a whitespace character. *)
Fixpoint ends_clean (s : string) : bool :=
  match s with
  | EmptyString => true
  | String c r =>
      match r with
      | EmptyString => negb (is_space c)
      | _ => ends_clean r
      end
  end.

(** The string does not start with a whitespace character. *)
Definition starts_clean (s : string) : bool :=
  match s with
  | EmptyString => true
  | String c _ => negb (is_space c)
  end.

(** ** The name proposed for the saved document *)

(** ['.' in s] *)
Fixpoint contains_dot (s : string) : bool :=
  match s with
  | EmptyString => false
  | String c r => (code c =? 46) || contains_dot r
  end.

(** [s.rsplit('.', 1)]: the parts before and behind the last dot, the
    whole string when it has none. *)
Fixpoint rsplit_dot (s : string) : list string :=
  match s with
  | EmptyString => [EmptyString]
  | String c r =>
      match rsplit_dot r with
      | [tail] =>
          if code c =? 46 then [EmptyString; tail] else [String c tail]
      | head :: rest => String c head :: rest
      | [] => []
      end
  end.

(** [file.filename.rsplit('.', 1)[0] if '.' in file.filename else
    file.filename] *)
Definition output_name (filename : string) : string :=
  if contains_dot filename then default "" (head (rsplit_dot filename))
  else filename.

(** [initialfile] of the save dialog: the output name, or the form's
    process name when there is none, with the extension. *)
Definition initial_file (filename : string) (metadata : gmap string string) : string :=
  let output_name := output_name filename in
  let output_name :=
    if negb (nonempty output_name)
    then default "Generated" (metadata !! "process_name") else output_name in
  output_name +:+ ".docx".

(** ** The metadata of [generate_sop] *)

(** [for field in ['process_name', 'process_code', 'purpose', 'scope']] *)
Definition simple_fields : list string :=
  ["process_name"; "process_code"; "purpose"; "scope"].

(** One round: the form value unless it is blank and the BPMN metadata
    have the field. *)
Definition fill_field (bpmn metadata : gmap string string) (field : string)
    : gmap string string :=
  let form_value := strip (default "" (metadata !! field)) in
  match bpmn !! field with
  | Some v => if negb (nonempty form_value) then <[field := v]> metadata else metadata
  | None => metadata
  end.

Definition fill_fields (bpmn metadata : gmap string string) : gmap string string :=
  foldl (fill_field bpmn) metadata simple_fields.

(** [for a, b in zip(firsts, seconds): if a.strip() or b.strip():
    append((a.strip(), b.strip()))] *)
Definition parse_pairs (firsts seconds : list string) : list (string * string) :=
  omap (λ ab : string * string,
          if nonempty (strip ab.1) || nonempty (strip ab.2)
          then Some (strip ab.1, strip ab.2) else None)
       (zip firsts seconds).

(** The row for the process diagram. *)
Definition diagram_row (process_code process_name : string) : string * string :=
  (if nonempty process_code then "DGM- " +:+ process_code else "DGM-",
   process_name +:+ " Process Diagram        Notations Meaning").

(** [references] of [generate_sop], from the form's reference rows, the
    metadata after [fill_fields], and the BPMN metadata's lane names and
    fields. *)
Definition references_for (ref_ids ref_titles : list string)
    (metadata bpmn : gmap string string) (lane_names : list string)
    : list (string * string) :=
  let references := parse_pairs ref_ids ref_titles in
  match references with
  | [] =>
      let references := (λ lane_name, ("N/A", lane_name +:+ " Approval")) <$> lane_names in
      let process_code := strip (default "" (metadata !! "process_code")) in
      let process_code :=
        if negb (nonempty process_code)
        then default "" (bpmn !! "process_code") else process_code in
      let process_name := strip (default "" (metadata !! "process_name")) in
      let process_name :=
        if negb (nonempty process_name)
        then default "" (bpmn !! "process_name") else process_name in
      if nonempty process_code || nonempty process_name
      then references ++ [diagram_row process_code process_name]
      else references
  | _ => references
  end.


End Handlers.

(** * Properties *)

(** * Properties of while loops *)

Section WhileRules.
Context {S : Type} (cond : S → bool) (body : S → S).
Context (P : S → Prop) (m : S → nat).
Hypothesis step_ok : ∀ s, P s → cond s = true → P (body s) ∧ m (body s) < m s.

(** Hoare rule with a variant: with enough fuel the loop ends in a state
    where the invariant holds and the condition is false. *)
Lemma while_rule fuel s :
  m s ≤ fuel → P s →
  P (while fuel cond body s) ∧ cond (while fuel cond body s) = false.
Proof using step_ok.
  revert s. induction fuel as [|fuel IH]; intros s Hm Hs; simpl.
  - split; [done|]. destruct (cond s) eqn:Hc; [|done].
    destruct (step_ok s Hs Hc) as [_ Hlt]. lia.
  - destruct (cond s) eqn:Hc; [|done].
    destruct (step_ok s Hs Hc) as [Hb Hlt]. apply IH; [lia|done].
Qed.

(** Fuel beyond the variant does not change the result. *)
Lemma while_fuel_irrel f1 f2 s :
  P s → m s ≤ f1 → m s ≤ f2 →
  while f1 cond body s = while f2 cond body s.
Proof using step_ok.
  revert f2 s. induction f1 as [|f1 IH]; intros f2 s Hs H1 H2.
  - destruct f2 as [|f2]; simpl; [done|].
    destruct (cond s) eqn:Hc; [|done].
    destruct (step_ok s Hs Hc) as [_ Hlt]. lia.
  - destruct f2 as [|f2]; simpl; destruct (cond s) eqn:Hc; try done.
    + destruct (step_ok s Hs Hc) as [_ Hlt]. lia.
    + destruct (step_ok s Hs Hc) as [Hb Hlt]. apply IH; [done|lia|lia].
Qed.

(** The loop equation, at a fixed fuel that covers the variant. *)
Lemma while_unfold fuel s :
  P s → m s ≤ fuel →
  while fuel cond body s
  = if cond s then while fuel cond body (body s) else s.
Proof using step_ok.
  intros Hs Hm. destruct (cond s) eqn:Hc.
  - destruct (step_ok s Hs Hc) as [Hb Hlt].
    destruct fuel as [|fuel]; [lia|].
    transitivity (while fuel cond body (body s)).
    + cbn [while]. by rewrite Hc.
    + apply while_fuel_irrel; [done|lia|lia].
  - destruct fuel as [|fuel]; cbn [while]; [done|]. by rewrite Hc.
Qed.
End WhileRules.

(** Loops with equal conditions and bodies compute the same. *)
Lemma while_ext {S : Type} (cond cond' : S → bool) (body body' : S → S) :
  (∀ s, cond s = cond' s) → (∀ s, body s = body' s) →
  ∀ fuel s, while fuel cond body s = while fuel cond' body' s.
Proof.
  intros Hc Hb fuel. induction fuel as [|fuel IH]; intros s; simpl; [done|].
  rewrite <- Hc. destruct (cond s); [|done]. rewrite <- Hb. apply IH.
Qed.

(** * Properties of the planner's loops *)

Module PlannerFacts.
Import Planner.

Section Loops.
Variable steps : list step.

Lemma gateway_at_lt j : gateway_at steps j = true → j < length steps.
Proof.
  unfold gateway_at. destruct (steps !! j) eqn:E; [|done].
  intros _. by eapply lookup_lt_Some.
Qed.

Lemma group_at_lt g j : group_at steps g j = true → j < length steps.
Proof.
  unfold group_at. destruct (steps !! j) eqn:E; [|done].
  intros _. by eapply lookup_lt_Some.
Qed.

Lemma gateway_at_ge j : length steps ≤ j → gateway_at steps j = false.
Proof.
  intros H. destruct (gateway_at steps j) eqn:E; [|done].
  apply gateway_at_lt in E. lia.
Qed.

Lemma absorb_gateways_spec e j :
  gateways_post steps e j (absorb_gateways steps (e, j))
  ∧ gateway_at steps (absorb_gateways steps (e, j)).2 = false.
Proof.
  unfold absorb_gateways.
  apply (while_rule (λ st : nat * nat, gateway_at steps st.2)
           (λ st : nat * nat, (st.2, S st.2))
           (gateways_post steps e j) (λ st, length steps - st.2)).
  - intros [e' j'] (Hle & Hlen & He & Hall) Hc; simpl in *.
    pose proof (gateway_at_lt _ Hc) as Hlt.
    split; [|lia]. repeat split; simpl; try lia.
    intros k Hk. destruct (decide (k = j')) as [->|]; [done|].
    apply Hall. lia.
  - simpl. lia.
  - repeat split; simpl; intros; lia.
Qed.

(** The last branch's loop: it stops at the first step at or after
    [idx] that is not a gateway. *)
Lemma skip_gateways_spec idx :
  let r := skip_gateways steps idx in
  idx ≤ r ∧ (idx ≤ length steps → r ≤ length steps)
  ∧ (∀ k, idx ≤ k < r → gateway_at steps k = true)
  ∧ gateway_at steps r = false.
Proof.
  unfold skip_gateways.
  pose (Q := λ r : nat, idx ≤ r ∧ (idx ≤ length steps → r ≤ length steps)
              ∧ (∀ k, idx ≤ k < r → gateway_at steps k = true)).
  destruct (while_rule (gateway_at steps) S Q (λ r, length steps - r))
    with (fuel := length steps) (s := idx) as [(H1 & H2 & H3) H4].
  - intros r (Hle & Hlen & Hall) Hc.
    pose proof (gateway_at_lt _ Hc) as Hlt.
    split; [|lia]. repeat split; try lia.
    intros k Hk. destruct (decide (k = r)) as [->|]; [done|].
    apply Hall. lia.
  - lia.
  - repeat split; intros; lia.
  - simpl. auto.
Qed.

Lemma absorb_group_spec g e j :
  S e = j → gateway_at steps j = false →
  group_post steps g j (absorb_group steps g (e, j))
  ∧ group_at steps g (absorb_group steps g (e, j)).2 = false.
Proof.
  intros He Hj. unfold absorb_group.
  apply (while_rule (λ st : nat * nat, group_at steps g st.2)
           (λ st : nat * nat, absorb_gateways steps (st.2, S st.2))
           (group_post steps g j) (λ st, length steps - st.2)).
  - intros [e' j'] (Hle & Hlen & He' & Hg & Hall) Hc; simpl in *.
    pose proof (group_at_lt _ _ Hc) as Hlt.
    destruct (absorb_gateways_spec j' (S j')) as [(G1 & G2 & G3 & G4) G5].
    split; [|lia]. repeat split; try lia; try done; try (by apply G3).
    intros k Hk. destruct (decide (k < j')); [apply Hall; lia|].
    destruct (decide (k = j')) as [->|]; [by right|].
    left. apply G4. lia.
  - simpl. lia.
  - repeat split; simpl; intros; try done; lia.
Qed.

(** ** One round of the outer loop *)

Lemma plan_body_acc idx acc :
  plan_body steps (idx, acc) = (next steps idx, acc ++ emit steps idx).
Proof.
  unfold next, emit, plan_body; simpl.
  destruct (steps !! idx) as [s|]; simpl; [|by rewrite app_nil_r].
  destruct (truthy (sla s) && negb (truthy (sla_group s))).
  { by destruct (absorb_gateways steps (idx, S idx)). }
  destruct (truthy (sla_group s)); simpl; [|by rewrite app_nil_r].
  destruct (absorb_gateways steps (idx, S idx)) as [e j].
  by destruct (absorb_group steps (sla_group s) (e, j)).
Qed.

(** First branch: the step owns its SLA. *)
Lemma round_own idx s :
  steps !! idx = Some s →
  truthy (sla s) = true → truthy (sla_group s) = false →
  ∃ e, emit steps idx = [(idx, e, sla s)] ∧ next steps idx = S e
    ∧ idx ≤ e < length steps
    ∧ (∀ k, idx < k ≤ e → gateway_at steps k = true)
    ∧ gateway_at steps (S e) = false.
Proof.
  intros Hs Ht Hg. unfold emit, next, plan_body; simpl.
  rewrite Hs, Ht, Hg; simpl.
  destruct (absorb_gateways_spec idx (S idx)) as [(G1 & G2 & G3 & G4) G5].
  destruct (absorb_gateways steps (idx, S idx)) as [e j]; simpl in *.
  apply lookup_lt_Some in Hs.
  exists e. specialize (G3 eq_refl). subst j.
  repeat split; try lia; try done.
  intros k Hk. apply G4. lia.
Qed.

(** Second branch: the step carries a group key. *)
Lemma round_group idx s :
  steps !! idx = Some s →
  truthy (sla_group s) = true →
  ∃ e, emit steps idx = [(idx, e, sla s)] ∧ next steps idx = S e
    ∧ idx ≤ e < length steps
    ∧ (∀ k, idx < k ≤ e →
         gateway_at steps k = true ∨ group_at steps (sla_group s) k = true)
    ∧ gateway_at steps (S e) = false
    ∧ group_at steps (sla_group s) (S e) = false.
Proof.
  intros Hs Hg. unfold emit, next, plan_body; simpl.
  rewrite Hs, Hg, andb_false_r; simpl.
  destruct (absorb_gateways_spec idx (S idx)) as [(G1 & G2 & G3 & G4) G5].
  destruct (absorb_gateways steps (idx, S idx)) as [e j]; simpl in *.
  specialize (G3 eq_refl).
  destruct (absorb_group_spec (sla_group s) e j G3 G5)
    as [(Q1 & Q2 & Q3 & Q4 & Q5) Q6].
  destruct (absorb_group steps (sla_group s) (e, j)) as [e' j']; simpl in *.
  apply lookup_lt_Some in Hs.
  exists e'. subst j'.
  repeat split; try lia; try done.
  intros k Hk. destruct (decide (k < j)); [left; apply G4; lia|].
  apply Q5. lia.
Qed.

(** Third branch: neither an SLA nor a group key. *)
Lemma round_skip idx s :
  steps !! idx = Some s →
  truthy (sla_group s) = false → truthy (sla s) = false →
  emit steps idx = [] ∧ idx < next steps idx ≤ length steps
  ∧ (∀ k, idx < k < next steps idx → gateway_at steps k = true)
  ∧ gateway_at steps (next steps idx) = false.
Proof.
  intros Hs Hg Ht. unfold emit, next, plan_body; simpl.
  rewrite Hs, Hg, Ht; simpl.
  destruct (skip_gateways_spec (S idx)) as (K1 & K2 & K3 & K4).
  apply lookup_lt_Some in Hs.
  repeat split; try lia; try done; intros k Hk; apply K3; lia.
Qed.

(** Every round moves the scan forward, to a step that is not a
    gateway (or to the end). *)
Lemma next_bounds idx :
  idx < length steps →
  idx < next steps idx ≤ length steps
  ∧ gateway_at steps (next steps idx) = false.
Proof.
  intros Hlt. destruct (lookup_lt_is_Some_2 steps idx Hlt) as [s Hs].
  destruct (truthy (sla_group s)) eqn:Hg.
  - destruct (round_group idx s Hs Hg) as (e & _ & -> & ? & _ & ? & _).
    split; [lia|done].
  - destruct (truthy (sla s)) eqn:Ht.
    + destruct (round_own idx s Hs Ht Hg) as (e & _ & -> & ? & _ & ?).
      split; [lia|done].
    + destruct (round_skip idx s Hs Hg Ht) as (_ & ? & _ & ?). done.
Qed.

(** ** The outer loop *)

Lemma plan_round_ok (st : nat * list range) :
  True → plan_cond steps st = true →
  True ∧ length steps - (plan_body steps st).1 < length steps - st.1.
Proof.
  destruct st as [idx acc]. intros _ Hc. split; [done|].
  unfold plan_cond in Hc. apply bool_decide_eq_true in Hc. simpl in Hc.
  rewrite plan_body_acc. simpl.
  pose proof (next_bounds idx Hc). lia.
Qed.

(** The outer loop ends because the index has reached the end of the
    steps, and more fuel than [len(steps)] changes nothing. *)
Lemma plan_loop_exits idx acc :
  plan_cond steps (plan_loop steps idx acc) = false.
Proof.
  unfold plan_loop.
  apply (while_rule (plan_cond steps) (plan_body steps) (λ _, True)
           (λ st, length steps - st.1) plan_round_ok); [simpl; lia|done].
Qed.

Lemma plan_fuel_irrel fuel idx acc :
  length steps - idx ≤ fuel →
  while fuel (plan_cond steps) (plan_body steps) (idx, acc)
  = plan_loop steps idx acc.
Proof.
  intros H. unfold plan_loop.
  apply (while_fuel_irrel (plan_cond steps) (plan_body steps) (λ _, True)
           (λ st, length steps - st.1) plan_round_ok); [done|done|simpl; lia].
Qed.

Lemma plan_loop_acc_fuel fuel idx acc :
  while fuel (plan_cond steps) (plan_body steps) (idx, acc)
  = ((while fuel (plan_cond steps) (plan_body steps) (idx, [])).1,
     acc ++ (while fuel (plan_cond steps) (plan_body steps) (idx, [])).2).
Proof.
  revert idx acc. induction fuel as [|fuel IH]; intros idx acc; simpl.
  { by rewrite app_nil_r. }
  unfold plan_cond at 1 3 5; simpl.
  destruct (bool_decide (idx < length steps)); simpl; [|by rewrite app_nil_r].
  rewrite !plan_body_acc. simpl.
  rewrite (IH _ (acc ++ _)), (IH _ (emit steps idx)). simpl.
  by rewrite app_assoc.
Qed.

Lemma plan_loop_acc idx acc :
  (plan_loop steps idx acc).2 = acc ++ plan_from steps idx.
Proof. unfold plan_from, plan_loop. by rewrite plan_loop_acc_fuel. Qed.

(** The scan from [idx]: this round's ranges, then the scan from the
    next index. *)
Lemma plan_from_unfold idx :
  idx < length steps →
  plan_from steps idx = emit steps idx ++ plan_from steps (next steps idx).
Proof.
  intros Hlt. unfold plan_from at 1. unfold plan_loop.
  rewrite (while_unfold _ _ (λ _, True) (λ st, length steps - st.1)
             plan_round_ok); [|done|simpl; lia].
  unfold plan_cond at 1; simpl. rewrite bool_decide_eq_true_2 by done.
  rewrite plan_body_acc. simpl. apply plan_loop_acc.
Qed.

Lemma plan_from_end idx :
  length steps ≤ idx → plan_from steps idx = [].
Proof.
  intros Hge. unfold plan_from, plan_loop.
  rewrite (while_unfold _ _ (λ _, True) (λ st, length steps - st.1)
             plan_round_ok); [|done|simpl; lia].
  unfold plan_cond at 1; simpl. rewrite bool_decide_eq_false_2 by lia. done.
Qed.

Lemma plan_is_plan_from : plan steps = plan_from steps 0.
Proof. done. Qed.

(** Induction along the scan. *)
Lemma plan_from_ind (Q : nat → list range → Prop) :
  (∀ idx, length steps ≤ idx → Q idx []) →
  (∀ idx, idx < length steps →
     Q (next steps idx) (plan_from steps (next steps idx)) →
     Q idx (emit steps idx ++ plan_from steps (next steps idx))) →
  ∀ idx, Q idx (plan_from steps idx).
Proof.
  intros Hend Hround idx.
  remember (length steps - idx) as n eqn:Hn.
  revert idx Hn. induction n as [n IH] using lt_wf_ind. intros idx Hn.
  destruct (decide (idx < length steps)) as [Hlt|Hge].
  - rewrite plan_from_unfold by done. apply Hround; [done|].
    pose proof (next_bounds idx Hlt).
    apply (IH (length steps - next steps idx)); [lia|done].
  - rewrite plan_from_end by lia. apply Hend. lia.
Qed.

(** ** The ranges come out in order *)

Lemma chain_weaken lo lo' rs : lo' ≤ lo → chain lo rs → chain lo' rs.
Proof.
  intros Hle Hc. destruct Hc; constructor; try done. lia.
Qed.

Lemma chain_elem lo rs r :
  chain lo rs → r ∈ rs → lo ≤ r_start r ∧ r_start r ≤ r_end r.
Proof.
  intros Hc. induction Hc as [|lo s e v rs H1 H2 Hc IH]; intros Hin.
  - by apply elem_of_nil in Hin.
  - apply elem_of_cons in Hin as [->|Hin]; [done|].
    destruct (IH Hin) as [? ?]. split; [lia|done].
Qed.

Lemma chain_lookup_lt lo rs i j r1 r2 :
  chain lo rs → rs !! i = Some r1 → rs !! j = Some r2 → i < j →
  r_end r1 < r_start r2.
Proof.
  intros Hc. revert i j.
  induction Hc as [|lo s e v rs H1 H2 Hc IH]; intros i j Hi Hj Hlt; [done|].
  destruct j as [|j]; [lia|]. simpl in Hj.
  destruct i as [|i]; simpl in Hi.
  - injection Hi as <-. apply list_elem_of_lookup_2 in Hj.
    destruct (chain_elem _ _ _ Hc Hj) as [? _]. unfold r_end; simpl. lia.
  - apply (IH i j); [done|done|lia].
Qed.

Lemma plan_from_chain idx : chain idx (plan_from steps idx).
Proof.
  apply (plan_from_ind chain); [intros; constructor|].
  clear idx. intros idx Hlt IH.
  destruct (lookup_lt_is_Some_2 steps idx Hlt) as [s Hs].
  destruct (truthy (sla_group s)) eqn:Hg.
  - destruct (round_group idx s Hs Hg) as (e & -> & Hn & ? & _).
    rewrite Hn in *. simpl. constructor; [lia|lia|done].
  - destruct (truthy (sla s)) eqn:Ht.
    + destruct (round_own idx s Hs Ht Hg) as (e & -> & Hn & ? & _).
      rewrite Hn in *. simpl. constructor; [lia|lia|done].
    + destruct (round_skip idx s Hs Hg Ht) as (-> & ? & _). simpl.
      eapply chain_weaken; [|done]. lia.
Qed.

(** ** What every emitted range satisfies *)

Lemma plan_from_ranges_ok idx :
  idx = 0 ∨ gateway_at steps idx = false →
  Forall (range_ok steps) (plan_from steps idx).
Proof.
  apply (plan_from_ind
           (λ idx rs, idx = 0 ∨ gateway_at steps idx = false → Forall (range_ok steps) rs));
    [intros; constructor|].
  clear idx. intros idx Hlt IH Hidx.
  destruct (next_bounds idx Hlt) as [_ Hnext].
  specialize (IH (or_intror Hnext)).
  destruct (lookup_lt_is_Some_2 steps idx Hlt) as [s Hs].
  destruct (truthy (sla_group s)) eqn:Hg.
  - destruct (round_group idx s Hs Hg) as (e & -> & Hn & ? & Hall & Hgw & _).
    simpl. constructor; [|done].
    unfold range_ok, r_start, r_end, r_value; simpl.
    repeat split; try lia; try done.
    exists s. repeat split; try done; [by right|].
    intros k Hk. destruct (Hall k Hk); [by left|by right].
  - destruct (truthy (sla s)) eqn:Ht.
    + destruct (round_own idx s Hs Ht Hg) as (e & -> & Hn & ? & Hall & Hgw).
      simpl. constructor; [|done].
      unfold range_ok, r_start, r_end, r_value; simpl.
      repeat split; try lia; try done.
      exists s. repeat split; try done; [by left|].
      intros k Hk. left. by apply Hall.
    + destruct (round_skip idx s Hs Hg Ht) as (-> & _). done.
Qed.

Lemma plan_ranges_ok r : r ∈ plan steps → range_ok steps r.
Proof.
  intros Hin. pose proof (plan_from_ranges_ok 0 (or_introl eq_refl)) as HF.
  rewrite Forall_forall in HF. by apply HF.
Qed.

(** ** Scan positions *)

Lemma reaches_suffix idx :
  reaches steps idx → ∃ pre, plan steps = pre ++ plan_from steps idx.
Proof.
  induction 1 as [|idx Hr [pre IH] Hlt].
  - by exists [].
  - exists (pre ++ emit steps idx).
    rewrite IH, plan_from_unfold by done. by rewrite app_assoc.
Qed.

Lemma reaches_emit idx r :
  reaches steps idx → r ∈ emit steps idx → r ∈ plan steps.
Proof.
  intros Hr Hin. destruct (reaches_suffix idx Hr) as [pre ->].
  apply elem_of_app. right.
  destruct (decide (idx < length steps)) as [Hlt|Hge].
  - rewrite plan_from_unfold by done. apply elem_of_app. by left.
  - unfold emit, plan_body in Hin. simpl in Hin.
    rewrite lookup_ge_None_2 in Hin by lia. by apply elem_of_nil in Hin.
Qed.

(** A round never jumps over a step that is neither a gateway nor a
    member of a group. *)
Lemma next_stops_before idx i s :
  steps !! i = Some s → is_gateway s = false → truthy (sla_group s) = false →
  idx < i → next steps idx ≤ i.
Proof.
  intros Hi Hgw Hgrp Hlt.
  assert (Hlen : idx < length steps) by (apply lookup_lt_Some in Hi; lia).
  destruct (decide (next steps idx ≤ i)) as [|Hn]; [done|exfalso].
  assert (Hgi : gateway_at steps i = false) by (unfold gateway_at; by rewrite Hi).
  destruct (lookup_lt_is_Some_2 steps idx Hlen) as [s0 Hs0].
  destruct (truthy (sla_group s0)) eqn:Hg0.
  - destruct (round_group idx s0 Hs0 Hg0) as (e & _ & Hnx & _ & Hall & _).
    destruct (Hall i) as [E|E]; [lia|congruence|].
    unfold group_at in E. rewrite Hi in E. apply bool_decide_eq_true in E.
    congruence.
  - destruct (truthy (sla s0)) eqn:Ht0.
    + destruct (round_own idx s0 Hs0 Ht0 Hg0) as (e & _ & Hnx & _ & Hall & _).
      rewrite Hall in Hgi; [done|lia].
    + destruct (round_skip idx s0 Hs0 Hg0 Ht0) as (_ & _ & Hall & _).
      rewrite Hall in Hgi; [done|lia].
Qed.

Lemma reaches_from idx i s :
  steps !! i = Some s → is_gateway s = false → truthy (sla_group s) = false →
  reaches steps idx → idx ≤ i → reaches steps i.
Proof.
  intros Hi Hgw Hgrp.
  remember (i - idx) as n eqn:Hn. revert idx Hn.
  induction n as [n IH] using lt_wf_ind. intros idx Hn Hr Hle.
  destruct (decide (idx = i)) as [->|Hne]; [done|].
  assert (Hlt : idx < i) by lia.
  pose proof (next_stops_before idx i s Hi Hgw Hgrp Hlt) as Hnx.
  assert (Hlen : idx < length steps) by (apply lookup_lt_Some in Hi; lia).
  pose proof (next_bounds idx Hlen) as [[? _] _].
  apply (IH (i - next steps idx)) with (idx := next steps idx);
    [lia|done| |done].
  by constructor.
Qed.

(** The scan stands at every step that is neither a gateway nor a member
    of a group. *)
Lemma reaches_task i s :
  steps !! i = Some s → is_gateway s = false → truthy (sla_group s) = false →
  reaches steps i.
Proof.
  intros Hi Hgw Hgrp.
  apply (reaches_from 0 i s); [done|done|done|constructor|lia].
Qed.

Lemma emit_shape idx r :
  r ∈ emit steps idx → r_start r = idx ∧ next steps idx = S (r_end r).
Proof.
  intros Hin.
  destruct (steps !! idx) as [s|] eqn:Hs.
  - destruct (truthy (sla_group s)) eqn:Hg.
    + destruct (round_group idx s Hs Hg) as (e & He & Hn & _).
      rewrite He in Hin. apply list_elem_of_singleton in Hin as ->. done.
    + destruct (truthy (sla s)) eqn:Ht.
      * destruct (round_own idx s Hs Ht Hg) as (e & He & Hn & _).
        rewrite He in Hin. apply list_elem_of_singleton in Hin as ->. done.
      * destruct (round_skip idx s Hs Hg Ht) as (He & _).
        rewrite He in Hin. by apply elem_of_nil in Hin.
  - unfold emit, plan_body in Hin. simpl in Hin. rewrite Hs in Hin.
    by apply elem_of_nil in Hin.
Qed.

(** A step that is not a gateway is a scan position unless a range opened
    by an earlier step with the same group key has absorbed it. *)
Lemma scan_or_absorbed_from idx i s :
  steps !! i = Some s → is_gateway s = false →
  reaches steps idx → idx ≤ i →
  reaches steps i
  ∨ ∃ r s0, r ∈ plan steps ∧ r_start r < i ≤ r_end r
      ∧ steps !! r_start r = Some s0
      ∧ truthy (sla_group s0) = true ∧ sla_group s = sla_group s0.
Proof.
  intros Hi Hgw.
  assert (Hgi : gateway_at steps i = false) by (unfold gateway_at; by rewrite Hi).
  remember (i - idx) as n eqn:Hn. revert idx Hn.
  induction n as [n IH] using lt_wf_ind. intros idx Hn Hr Hle.
  destruct (decide (idx = i)) as [->|Hne]; [by left|].
  assert (Hlen : idx < length steps) by (apply lookup_lt_Some in Hi; lia).
  pose proof (next_bounds idx Hlen) as [[Hn1 _] _].
  destruct (decide (next steps idx ≤ i)) as [Hnx|Hnx].
  { apply (IH (i - next steps idx)) with (idx := next steps idx);
      [lia|done|by constructor|done]. }
  destruct (lookup_lt_is_Some_2 steps idx Hlen) as [s0 Hs0].
  destruct (truthy (sla_group s0)) eqn:Hg0.
  - destruct (round_group idx s0 Hs0 Hg0) as (e & He & Hnext & _ & Hall & _).
    destruct (Hall i) as [E|E]; [lia|congruence|].
    unfold group_at in E. rewrite Hi in E. apply bool_decide_eq_true in E.
    right. exists (idx, e, sla s0), s0.
    split; [apply (reaches_emit idx); [done|rewrite He; by left]|].
    unfold r_start, r_end; simpl. split; [lia|]. done.
  - destruct (truthy (sla s0)) eqn:Ht0.
    + destruct (round_own idx s0 Hs0 Ht0 Hg0) as (e & _ & Hnext & _ & Hall & _).
      rewrite Hall in Hgi; [done|lia].
    + destruct (round_skip idx s0 Hs0 Hg0 Ht0) as (_ & _ & Hall & _).
      rewrite Hall in Hgi; [done|lia].
Qed.

Lemma scan_or_absorbed i s :
  steps !! i = Some s → is_gateway s = false →
  reaches steps i
  ∨ ∃ r s0, r ∈ plan steps ∧ r_start r < i ≤ r_end r
      ∧ steps !! r_start r = Some s0
      ∧ truthy (sla_group s0) = true ∧ sla_group s = sla_group s0.
Proof.
  intros Hi Hgw.
  apply (scan_or_absorbed_from 0 i s); [done|done|constructor|lia].
Qed.
End Loops.

(** ** The plan does not read the SLA of a step inside a range *)

Section SlaFrame.
Variable steps : list step.
Variable k : nat.
Variable v : option string.

Lemma gateway_at_set_sla j :
  gateway_at (alter (set_sla v) k steps) j = gateway_at steps j.
Proof.
  unfold gateway_at. destruct (decide (k = j)) as [->|Hne].
  - rewrite list_lookup_alter_eq. by destruct (steps !! j).
  - by rewrite list_lookup_alter_ne.
Qed.

Lemma group_at_set_sla g j :
  group_at (alter (set_sla v) k steps) g j = group_at steps g j.
Proof.
  unfold group_at. destruct (decide (k = j)) as [->|Hne].
  - rewrite list_lookup_alter_eq. by destruct (steps !! j).
  - by rewrite list_lookup_alter_ne.
Qed.

Lemma absorb_gateways_set_sla st :
  absorb_gateways (alter (set_sla v) k steps) st = absorb_gateways steps st.
Proof.
  unfold absorb_gateways. rewrite length_alter.
  apply while_ext; [|done]. intros s. apply gateway_at_set_sla.
Qed.

Lemma absorb_group_set_sla g st :
  absorb_group (alter (set_sla v) k steps) g st = absorb_group steps g st.
Proof.
  unfold absorb_group. rewrite length_alter.
  apply while_ext; intros s;
    [apply group_at_set_sla|apply absorb_gateways_set_sla].
Qed.

Lemma skip_gateways_set_sla idx :
  skip_gateways (alter (set_sla v) k steps) idx = skip_gateways steps idx.
Proof.
  unfold skip_gateways. rewrite length_alter.
  apply while_ext; [|done]. intros s. apply gateway_at_set_sla.
Qed.

Lemma plan_body_set_sla idx acc :
  idx ≠ k →
  plan_body (alter (set_sla v) k steps) (idx, acc) = plan_body steps (idx, acc).
Proof.
  intros Hne. unfold plan_body; simpl.
  rewrite list_lookup_alter_ne by done.
  destruct (steps !! idx) as [s|]; [|done].
  rewrite !absorb_gateways_set_sla, skip_gateways_set_sla.
  destruct (absorb_gateways steps (idx, S idx)) as [e j].
  by rewrite absorb_group_set_sla.
Qed.

Lemma plan_from_set_sla idx :
  (k < idx ∨ ∃ r, r ∈ plan_from steps idx ∧ r_start r < k ≤ r_end r) →
  plan_from (alter (set_sla v) k steps) idx = plan_from steps idx.
Proof.
  apply (plan_from_ind steps
    (λ idx rs, (k < idx ∨ ∃ r, r ∈ rs ∧ r_start r < k ≤ r_end r) →
               plan_from (alter (set_sla v) k steps) idx = rs)).
  - clear idx. intros idx Hge _. apply plan_from_end.
    rewrite length_alter. done.
  - clear idx. intros idx Hlt IH Hk.
    pose proof (next_bounds steps idx Hlt) as [[Hn1 Hn2] _].
    assert (idx ≠ k ∧
              (k < next steps idx ∨
               ∃ r, r ∈ plan_from steps (next steps idx)
                    ∧ r_start r < k ≤ r_end r)) as [Hne Hk'].
    { destruct Hk as [Hk|(r & Hin & Hr)]; [split; [lia|left; lia]|].
      apply elem_of_app in Hin as [Hin|Hin].
      - apply emit_shape in Hin as [Hs Hn]. split; [lia|left; lia].
      - destruct (chain_elem _ _ _ (plan_from_chain steps _) Hin) as [? _].
        split; [lia|]. right. by exists r. }
    rewrite plan_from_unfold by (by rewrite length_alter).
    unfold emit, next. rewrite !plan_body_set_sla by done.
    fold (emit steps idx). fold (next steps idx).
    by rewrite (IH Hk').
Qed.
End SlaFrame.
End PlannerFacts.

(** * The planner meets its specification *)

Module PlannerSpec.
Import Planner PlannerFacts Samples.

Example plan_own_sla_run : plan own_sla_run = [(0, 2, Some "4h")].
Proof. vm_compute. reflexivity. Qed.

Example plan_group_run : plan group_run = [(2, 4, Some "24h")].
Proof. vm_compute. reflexivity. Qed.

Example plan_two_groups :
  plan [task_group "G1" "1h"; task_group "G2" "2h"]
  = [(0, 0, Some "1h"); (1, 1, Some "2h")].
Proof. vm_compute. reflexivity. Qed.

Example plan_mixed_group : plan mixed_group = [(0, 2, None)].
Proof. vm_compute. reflexivity. Qed.

Example plan_empty : plan [] = [].
Proof. reflexivity. Qed.

(** C1.  When the scan stands at index [i] and step [i] has a non-empty
    [sla] and no [sla_group], the planner emits the range [(i, e, sla)]
    where [i+1 .. e] are exactly the gateway steps that follow [i]
    immediately, and resumes at [e+1]; the range is part of the final plan.
    The scan stands at every step that is not a gateway and has no group
    key, so every such step with an [sla] owns the range described.  For
    [A(sla="4h"), gateway, gateway, B] the plan is the single range
    [(0, 2, "4h")] and index 3 lies in no range. *)
Theorem own_sla_opens_range :
  (∀ steps i s,
     reaches steps i → steps !! i = Some s →
     truthy (sla s) = true → truthy (sla_group s) = false →
     ∃ e, (i, e, sla s) ∈ plan steps
        ∧ plan_from steps i = (i, e, sla s) :: plan_from steps (S e)
        ∧ i ≤ e < length steps
        ∧ (∀ k, i < k ≤ e → gateway_at steps k = true)
        ∧ gateway_at steps (S e) = false)
  ∧ (∀ steps i s,
       steps !! i = Some s → is_gateway s = false →
       truthy (sla s) = true → truthy (sla_group s) = false →
       ∃ e, (i, e, sla s) ∈ plan steps
          ∧ i ≤ e < length steps
          ∧ (∀ k, i < k ≤ e → gateway_at steps k = true)
          ∧ gateway_at steps (S e) = false)
  ∧ plan own_sla_run = [(0, 2, Some "4h")]
  ∧ (∀ r, r ∈ plan own_sla_run → ¬ covers r 3).
Proof.
  assert (∀ steps i s,
     reaches steps i → steps !! i = Some s →
     truthy (sla s) = true → truthy (sla_group s) = false →
     ∃ e, (i, e, sla s) ∈ plan steps
        ∧ plan_from steps i = (i, e, sla s) :: plan_from steps (S e)
        ∧ i ≤ e < length steps
        ∧ (∀ k, i < k ≤ e → gateway_at steps k = true)
        ∧ gateway_at steps (S e) = false) as Hscan.
  { intros steps i s Hr Hs Ht Hg.
    destruct (round_own steps i s Hs Ht Hg) as (e & He & Hn & Hb & Hall & Hgw).
    exists e. repeat split; try done; try lia.
    + apply (reaches_emit steps i); [done|]. rewrite He. by left.
    + rewrite plan_from_unfold by lia. by rewrite He, Hn. }
  split; [done|split; [|split]].
  - intros steps i s Hs Hgw Ht Hg.
    destruct (Hscan steps i s (reaches_task steps i s Hs Hgw Hg) Hs Ht Hg)
      as (e & H1 & _ & H2 & H3 & H4).
    by exists e.
  - vm_compute. reflexivity.
  - intros r Hin. rewrite plan_own_sla_run in Hin.
    apply list_elem_of_singleton in Hin as ->.
    unfold covers, r_start, r_end; simpl. lia.
Qed.

Lemma own_sla_opens_range_witness :
  ∃ e, (0, e, Some "4h") ∈ plan own_sla_run
     ∧ plan_from own_sla_run 0 = (0, e, Some "4h") :: plan_from own_sla_run (S e)
     ∧ 0 ≤ e < length own_sla_run
     ∧ (∀ k, 0 < k ≤ e → gateway_at own_sla_run k = true)
     ∧ gateway_at own_sla_run (S e) = false.
Proof.
  apply (proj1 own_sla_opens_range own_sla_run 0 (task_sla "4h")).
  - apply reaches_start.
  - reflexivity.
  - reflexivity.
  - reflexivity.
Defined.

(** C2.  When the scan stands at index [i] and step [i] has a non-empty
    [sla_group], the planner emits the range [(i, e, sla)] valued with that
    step's [sla]; every step of [i+1 .. e] is a gateway or carries the same
    group key, and the step at [e+1], if any, is neither (its key differs
    or is absent), so the range absorbs gateways and same-group steps until
    the key changes or the sequence ends.  The scan stands at every step
    that is not a gateway, unless a range opened by an earlier step with
    the same group key has absorbed it.  For group "G" at indices 2 and
    4 with a gateway at 3 the plan is the single range [(2, 4, "24h")]. *)
Theorem group_opens_range :
  (∀ steps i s,
     reaches steps i → steps !! i = Some s →
     truthy (sla_group s) = true →
     ∃ e, (i, e, sla s) ∈ plan steps
        ∧ plan_from steps i = (i, e, sla s) :: plan_from steps (S e)
        ∧ i ≤ e < length steps
        ∧ (∀ k, i < k ≤ e →
             gateway_at steps k = true
             ∨ group_at steps (sla_group s) k = true)
        ∧ gateway_at steps (S e) = false
        ∧ group_at steps (sla_group s) (S e) = false)
  ∧ (∀ steps i s,
       steps !! i = Some s → is_gateway s = false →
       reaches steps i
       ∨ ∃ r s0, r ∈ plan steps ∧ r_start r < i ≤ r_end r
           ∧ steps !! r_start r = Some s0
           ∧ truthy (sla_group s0) = true ∧ sla_group s = sla_group s0)
  ∧ plan group_run = [(2, 4, Some "24h")].
Proof.
  split; [|split].
  - intros steps i s Hr Hs Hg.
    destruct (round_group steps i s Hs Hg)
      as (e & He & Hn & Hb & Hall & Hgw & Hgrp).
    exists e. repeat split; try done; try lia.
    + apply (reaches_emit steps i); [done|]. rewrite He. by left.
    + rewrite plan_from_unfold by lia. by rewrite He, Hn.
  - intros steps i s. apply scan_or_absorbed.
  - vm_compute. reflexivity.
Qed.

Lemma group_opens_range_witness :
  ∃ e, (2, e, Some "24h") ∈ plan group_run
     ∧ plan_from group_run 2 = (2, e, Some "24h") :: plan_from group_run (S e)
     ∧ 2 ≤ e < length group_run
     ∧ (∀ k, 2 < k ≤ e →
          gateway_at group_run k = true
          ∨ group_at group_run (Some "G") k = true)
     ∧ gateway_at group_run (S e) = false
     ∧ group_at group_run (Some "G") (S e) = false.
Proof.
  apply (proj1 group_opens_range group_run 2 (task_group "G" "24h")).
  - apply (reaches_next group_run 1); [|simpl; lia].
    apply (reaches_next group_run 0); [|simpl; lia].
    apply reaches_start.
  - reflexivity.
  - reflexivity.
Defined.

(** C3, as stated, fails: a gateway that opens the sequence and carries
    an [sla] starts a range of its own. *)
Lemma gateway_never_owner_counterexample :
  (0, 0, Some "4h") ∈ plan leading_gateway
  ∧ r_start (0, 0, Some "4h") = 0
  ∧ gateway_at leading_gateway 0 = true.
Proof. vm_compute. split; [left|done]. Qed.

(** C3, amended.  No range that starts after index 0 starts at a gateway,
    and when step 0 is not a gateway no range starts at a gateway at all.
    A gateway at [k] that follows a step [p] through gateways only
    ([p+1 .. k] all gateways) lies in exactly the ranges that [p] lies in:
    it extends the range holding its nearest preceding non-gateway step, or
    lies in no range when that step lies in none. *)
Theorem gateway_owner_only_leading steps r :
  r ∈ plan steps →
  (0 < r_start r → gateway_at steps (r_start r) = false)
  ∧ (gateway_at steps 0 = false → gateway_at steps (r_start r) = false)
  ∧ (∀ p k, p < k → (∀ q, p < q ≤ k → gateway_at steps q = true) →
       (covers r p ↔ covers r k)).
Proof.
  intros Hin.
  destruct (plan_ranges_ok steps r Hin) as (Hb & Hst & Hend & _).
  split; [|split].
  - intros Hpos. destruct Hst as [Hz|Hg]; [lia|done].
  - intros H0. destruct Hst as [Hz|Hg]; [by rewrite Hz|done].
  - intros p k Hpk Hgw. unfold covers. split; intros [H1 H2].
    + split; [lia|].
      destruct (decide (k ≤ r_end r)) as [|Hn]; [done|].
      rewrite Hgw in Hend; [done|lia].
    + split; [|lia].
      destruct (decide (r_start r ≤ p)) as [|Hn]; [done|].
      destruct Hst as [Hz|Hg]; [lia|].
      rewrite Hgw in Hg; [done|lia].
Qed.

Lemma gateway_owner_only_leading_witness :
  (0 < r_start (0, 2, Some "4h") →
   gateway_at own_sla_run (r_start (0, 2, Some "4h")) = false)
  ∧ (gateway_at own_sla_run 0 = false →
     gateway_at own_sla_run (r_start (0, 2, Some "4h")) = false)
  ∧ (∀ p k, p < k → (∀ q, p < q ≤ k → gateway_at own_sla_run q = true) →
       (covers (0, 2, Some "4h") p ↔ covers (0, 2, Some "4h") k)).
Proof.
  apply (gateway_owner_only_leading own_sla_run (0, 2, Some "4h")).
  vm_compute. left.
Defined.

(** C4.  No step index lies inside two ranges of the plan: two entries of
    the plan that cover the same index are the same entry (and each
    range lies inside the step sequence, start before end). *)
Theorem ranges_disjoint steps i j r1 r2 k :
  plan steps !! i = Some r1 → plan steps !! j = Some r2 →
  covers r1 k → covers r2 k →
  i = j ∧ r1 = r2 ∧ k < length steps.
Proof.
  intros Hi Hj [A1 A2] [B1 B2].
  pose proof (plan_from_chain steps 0) as Hc. fold (plan steps) in Hc.
  assert (i = j) as ->.
  { destruct (lt_eq_lt_dec i j) as [[Hlt|Heq]|Hgt]; [|done|].
    - pose proof (chain_lookup_lt _ _ _ _ _ _ Hc Hi Hj Hlt). lia.
    - pose proof (chain_lookup_lt _ _ _ _ _ _ Hc Hj Hi Hgt). lia. }
  split; [done|]. split; [congruence|].
  apply list_elem_of_lookup_2 in Hi.
  destruct (plan_ranges_ok steps r1 Hi) as (Hb & _). lia.
Qed.

Lemma ranges_disjoint_witness :
  0 = 0 ∧ (0, 2, @None string) = (0, 2, @None string) ∧ 1 < length mixed_group.
Proof.
  apply (ranges_disjoint mixed_group 0 0 (0, 2, @None string) (0, 2, @None string) 1).
  - reflexivity.
  - reflexivity.
  - unfold covers, r_start, r_end; simpl; lia.
  - unfold covers, r_start, r_end; simpl; lia.
Defined.

(** C10.  The value of every range is the [sla] of the step at its start
    index, and the [sla] of a step inside the range behind the start has
    no influence on the plan: replacing it by any value leaves the plan
    unchanged.  So a later member of a group never contributes a value,
    also when the first member's [sla] is absent or empty. *)
Theorem first_member_sla_wins steps r :
  r ∈ plan steps →
  (∃ s, steps !! r_start r = Some s ∧ r_value r = sla s)
  ∧ (∀ k v, r_start r < k ≤ r_end r →
       plan (alter (set_sla v) k steps) = plan steps).
Proof.
  intros Hin. split.
  - destruct (plan_ranges_ok steps r Hin) as (_ & _ & _ & s & Hs & Hv & _).
    by exists s.
  - intros k v Hk. rewrite !plan_is_plan_from.
    apply plan_from_set_sla. right. exists r. done.
Qed.

Lemma first_member_sla_wins_witness :
  (∃ s, mixed_group !! r_start (0, 2, @None string) = Some s
        ∧ r_value (0, 2, @None string) = sla s)
  ∧ (∀ k v, r_start (0, 2, @None string) < k ≤ r_end (0, 2, @None string) →
       plan (alter (set_sla v) k mixed_group) = plan mixed_group).
Proof.
  apply (first_member_sla_wins mixed_group (0, 2, @None string)).
  vm_compute. left.
Defined.

End PlannerSpec.

(** * Properties of the row renderer *)

Module RendererFacts.
Import Docx Renderer.

Lemma render_row_closed cells stp :
  render_row cells stp
  = cs ← rendered_cells stp cells;
    Some (if is_gateway stp then shade_gateway cs else cs).
Proof.
  destruct cells as [|c0 [|c1 [|c2 [|c3 [|c4 [|c5 [|c6 rest]]]]]]];
    try reflexivity.
Qed.



Lemma rendered_cells_None stp cells :
  length cells < 7 → rendered_cells stp cells = None.
Proof.
  destruct cells as [|c0 [|c1 [|c2 [|c3 [|c4 [|c5 [|c6 rest]]]]]]];
    simpl; intros H; try done. lia.
Qed.

(** The renderer fails exactly on a row with fewer than seven cells. *)
Lemma render_row_None cells stp :
  length cells < 7 → render_row cells stp = None.
Proof.
  intros H. by rewrite render_row_closed, rendered_cells_None.
Qed.


Lemma shade_gateway_lookup cs i :
  shade_gateway cs !! i
  = (λ c, if i =? 6 then c else shade "D9D9D9" c) <$> cs !! i.
Proof. unfold shade_gateway. apply list_lookup_imap. Qed.







Lemma sla_cell_text c : cell_text (sla_cell c) = "".
Proof. done. Qed.

Lemma new_row_length t : length (new_row t) = t_grid t.
Proof. unfold new_row. apply length_replicate. Qed.



(** The SLA cell of a rendered row is blank and carries no property. *)
Lemma render_row_sla_ready t stp r :
  render_row (new_row t) stp = Some r → Applier.sla_ready r = true.
Proof.
  rewrite render_row_closed. unfold new_row.
  destruct (t_grid t) as [|[|[|[|[|[|[|n]]]]]]]; simpl; try done.
  intros H; injection H as <-.
  destruct (is_gateway stp); done.
Qed.

(** ** The loop over the steps *)

Lemma render_steps_inv steps t t' :
  render_steps t steps = Some t' →
  t_grid t' = t_grid t
  ∧ ∃ rows, t_rows t' = t_rows t ++ rows
      ∧ Forall2 (λ stp r, render_row (new_row t) stp = Some r) steps rows.
Proof.
  unfold render_steps. revert t.
  induction steps as [|stp steps IH]; intros t H; simpl in H.
  { injection H as <-. split; [done|]. exists []. by rewrite app_nil_r. }
  destruct (render_step t stp) as [t1|] eqn:H1; simpl in H; [|done].
  unfold render_step in H1.
  destruct (render_row (new_row t) stp) as [r|] eqn:Hr; simpl in H1; [|done].
  injection H1 as <-.
  destruct (IH _ H) as (Hg & rows & Hrows & HF). simpl in *.
  split; [done|]. exists (r :: rows). split.
  - rewrite Hrows, <- app_assoc. done.
  - constructor; done.
Qed.


Lemma render_steps_fails stp steps t :
  t_grid t < 7 → render_steps t (stp :: steps) = None.
Proof.
  intros H. unfold render_steps; simpl.
  assert (render_step t stp = None) as ->; [|done].
  unfold render_step. rewrite render_row_None; [done|].
  by rewrite new_row_length.
Qed.

End RendererFacts.

(** * Properties of the merge applier *)

Module ApplierFacts.
Import Docx Planner PlannerFacts Applier.

Lemma same_but_sla_refl r : same_but_sla r r.
Proof. by split. Qed.

Lemma rows_same_but_sla_refl rows : rows_same_but_sla rows rows.
Proof.
  split; [done|]. split; [done|].
  intros i r r' H1 H2. assert (r' = r) as -> by congruence.
  apply same_but_sla_refl.
Qed.

Lemma rows_same_but_sla_trans rows1 rows2 rows3 :
  rows_same_but_sla rows1 rows2 → rows_same_but_sla rows2 rows3 →
  rows_same_but_sla rows1 rows3.
Proof.
  intros (L1 & H1 & F1) (L2 & H2 & F2).
  split; [congruence|]. split; [congruence|].
  intros i r r' Hr Hr'.
  pose proof (lookup_lt_Some _ _ _ Hr) as Hlt.
  destruct (lookup_lt_is_Some_2 rows2 i) as [r2 Hr2]; [lia|].
  destruct (F1 i r r2 Hr Hr2) as [E1 G1].
  destruct (F2 i r2 r' Hr2 Hr') as [E2 G2].
  split; [congruence|].
  intros c Hc. rewrite G2, G1 by done. done.
Qed.

Lemma merge_row_same ms me v off r r' :
  merge_row ms me v off r = Some r' → same_but_sla r r'.
Proof.
  unfold merge_row. intros H.
  destruct (r !! 6) as [c|]; simpl in H; [|done].
  destruct (merge_cell ms me v off c) as [c'|]; simpl in H; [|done].
  injection H as <-. split; [by rewrite length_insert|].
  intros i Hi. by rewrite list_lookup_insert_ne.
Qed.

(** One row of one range: only row [i]'s SLA cell changes. *)
Lemma insert_row_same rows i r r' :
  0 < i → rows !! i = Some r → same_but_sla r r' →
  rows_same_but_sla rows (<[i := r']> rows).
Proof.
  intros Hpos Hr Hs.
  split; [by rewrite length_insert|].
  split; [by rewrite list_lookup_insert_ne by lia|].
  intros j q q' Hq Hq'.
  destruct (decide (i = j)) as [<-|Hne].
  - rewrite list_lookup_insert_eq in Hq' by (by eapply lookup_lt_Some).
    congruence.
  - rewrite list_lookup_insert_ne in Hq' by done.
    assert (q' = q) as -> by congruence. apply same_but_sla_refl.
Qed.

Lemma apply_range_rows_frame ms me v offsets rows rows' :
  apply_range_rows ms me v offsets rows = Some rows' →
  rows_same_but_sla rows rows'.
Proof.
  revert rows. induction offsets as [|off offsets IH]; intros rows H; simpl in H.
  { injection H as <-. apply rows_same_but_sla_refl. }
  case_bool_decide as Hlen.
  { injection H as <-. apply rows_same_but_sla_refl. }
  destruct (rows !! (off + 1)) as [r|] eqn:Hr; simpl in H; [|done].
  destruct (merge_row ms me v off r) as [r'|] eqn:Hm; simpl in H; [|done].
  eapply rows_same_but_sla_trans; [|by apply IH].
  apply (insert_row_same rows (off + 1) r r'); [lia|done|].
  by eapply merge_row_same.
Qed.

Lemma apply_merges_frame merges rows rows' :
  apply_merges merges rows = Some rows' → rows_same_but_sla rows rows'.
Proof.
  unfold apply_merges. revert rows.
  induction merges as [|[[ms me] v] merges IH]; intros rows H; simpl in H.
  { injection H as <-. apply rows_same_but_sla_refl. }
  destruct (apply_range_rows ms me v (seq ms (me + 1 - ms)) rows)
    as [rows1|] eqn:H1; simpl in H; [|done].
  eapply rows_same_but_sla_trans; [by eapply apply_range_rows_frame|by apply IH].
Qed.

(** ** The effect of one range, and of a chain of ranges *)

Lemma apply_range_rows_seq ms me v n a rows rows' :
  apply_range_rows ms me v (seq a n) rows = Some rows' →
  (∀ i, i < S a ∨ S (a + n) ≤ i → rows' !! i = rows !! i)
  ∧ (∀ off r, a ≤ off < a + n → rows !! S off = Some r →
       ∃ r', merge_row ms me v off r = Some r' ∧ rows' !! S off = Some r').
Proof.
  revert a rows. induction n as [|n IH]; intros a rows H; simpl in H.
  { injection H as <-. split; [done|]. intros off r Hoff. lia. }
  replace (a + 1) with (S a) in H by lia.
  case_bool_decide as Hlen.
  { injection H as <-. split; [done|].
    intros off r Hoff Hr. apply lookup_lt_Some in Hr. lia. }
  destruct (rows !! S a) as [r1|] eqn:Hr1; simpl in H; [|done].
  destruct (merge_row ms me v a r1) as [r1'|] eqn:Hm; simpl in H; [|done].
  destruct (IH _ _ H) as [F E]. split.
  - intros i Hi. rewrite F by lia. apply list_lookup_insert_ne. lia.
  - intros off r Hoff Hr. destruct (decide (off = a)) as [->|Hne].
    + exists r1'. split; [congruence|].
      rewrite F by lia. apply list_lookup_insert_eq. lia.
    + apply E; [lia|]. rewrite list_lookup_insert_ne by lia. done.
Qed.

Lemma apply_merges_chain lo merges :
  chain lo merges → ∀ rows rows',
  apply_merges merges rows = Some rows' →
  (∀ i, i < S lo → rows' !! i = rows !! i)
  ∧ (∀ m off r, m ∈ merges → covers m off → rows !! S off = Some r →
       ∃ r', merge_row (r_start m) (r_end m) (r_value m) off r = Some r'
             ∧ rows' !! S off = Some r').
Proof.
  unfold apply_merges.
  induction 1 as [lo|lo s e v rs Hlo Hse Hc IH]; intros rows rows' H; simpl in H.
  { injection H as <-. split; [done|]. intros m off r Hin.
    by apply elem_of_nil in Hin. }
  destruct (apply_range_rows s e v (seq s (e + 1 - s)) rows)
    as [rows1|] eqn:H1; simpl in H; [|done].
  destruct (apply_range_rows_seq _ _ _ _ _ _ _ H1) as [F1 E1].
  destruct (IH _ _ H) as [F2 E2]. split.
  - intros i Hi. rewrite F2 by lia. apply F1. lia.
  - intros m off r Hin [C1 C2] Hr.
    apply elem_of_cons in Hin as [->|Hin].
    + unfold r_start, r_end, r_value in *; simpl in *.
      destruct (E1 off r) as (r' & Hm & Hr'); [lia|done|].
      exists r'. split; [done|]. rewrite F2 by lia. done.
    + destruct (chain_elem _ _ _ Hc Hin) as [Hs _].
      apply E2; [done|by split|]. rewrite F1 by lia. done.
Qed.

(** ** The SLA cell after the applier *)

Lemma string_app_empty_r (t : string) : (t ++ "")%string = t.
Proof.
  induction t as [|a t IH]; [done|].
  change (String a (String.append t "") = String a t). by rewrite IH.
Qed.

Lemma concat_blank_runs t rs :
  forallb (λ r, String.eqb (run_text r) "") rs = true →
  String.concat "" (t :: (run_text <$> rs)) = t.
Proof.
  revert t. induction rs as [|r rs IH]; intros t H; [done|].
  simpl in H. apply andb_true_iff in H as [Hr Hrs].
  apply String.eqb_eq in Hr.
  change (String.concat "" (t :: (run_text <$> r :: rs)))
    with (t ++ "" ++ String.concat "" (run_text r :: (run_text <$> rs)))%string.
  rewrite (IH _ Hrs), Hr. simpl. apply string_app_empty_r.
Qed.

Lemma merge_cell_blank ms me v off c c' :
  blank_sla_cell c = true →
  merge_cell ms me v off c = Some c' →
  c_tcPr c' = merged_tcPr ms me off
  ∧ (off = ms → Some (cell_text c') = v)
  ∧ (off ≠ ms → cell_text c' = "").
Proof.
  destruct c as [ps tc]. unfold blank_sla_cell; simpl.
  destruct tc as [|? ?]; [|done].
  destruct ps as [|[a runs] [|? ?]]; try done. simpl.
  destruct runs as [|r0 rs]; [done|]. intros Hb.
  pose proof (concat_blank_runs (run_text r0) rs) as Hc0.
  simpl in Hb. apply andb_true_iff in Hb as [Hr0 Hrs].
  apply String.eqb_eq in Hr0.
  unfold merge_cell, merged_tcPr, shade; simpl.
  destruct (bool_decide (ms < me)); simpl;
    case_bool_decide as Hoff; simpl.
  - destruct v as [t|]; simpl; [|done]. intros H; injection H as <-.
    split; [done|]. split; [|done]. intros _.
    f_equal. exact (concat_blank_runs t rs Hrs).
  - intros H; injection H as <-. split; [done|]. split; [done|]. intros _.
    transitivity (run_text r0); [exact (Hc0 Hrs)|done].
  - destruct v as [t|]; simpl; [|done]. intros H; injection H as <-.
    split; [done|]. split; [|done]. intros _.
    f_equal. exact (concat_blank_runs t rs Hrs).
  - intros H; injection H as <-. split; [done|]. split; [done|]. intros _.
    transitivity (run_text r0); [exact (Hc0 Hrs)|done].
Qed.

(** What a chain of ranges leaves in the SLA cell of a row inside one
    of them, when that cell was blank. *)
Lemma apply_merges_effect merges rows rows' m k :
  chain 0 merges →
  (∀ i r, 0 < i → rows !! i = Some r → sla_ready r = true) →
  apply_merges merges rows = Some rows' →
  m ∈ merges → covers m k → S k < length rows →
  ∃ r' c', rows' !! S k = Some r' ∧ r' !! 6 = Some c'
    ∧ c_tcPr c' = merged_tcPr (r_start m) (r_end m) k
    ∧ (k = r_start m → Some (cell_text c') = r_value m)
    ∧ (k ≠ r_start m → cell_text c' = "").
Proof.
  intros Hc Hready Hrows' Hin Hcov Hk.
  destruct (apply_merges_chain 0 merges Hc rows rows' Hrows') as [_ E].
  destruct (lookup_lt_is_Some_2 rows (S k) Hk) as [r Hr].
  destruct (E m k r Hin Hcov Hr) as (r' & Hm & Hr').
  pose proof (Hready (S k) r (Nat.lt_0_succ k) Hr) as Hb.
  unfold sla_ready in Hb. unfold merge_row in Hm.
  destruct (r !! 6) as [c|] eqn:Hc6; [|done]. simpl in Hm.
  destruct (merge_cell (r_start m) (r_end m) (r_value m) k c) as [c'|] eqn:Hmc;
    simpl in Hm; [|done].
  injection Hm as <-.
  exists (<[6 := c']> r), c'. split; [done|]. split.
  - apply list_lookup_insert_eq. by eapply lookup_lt_Some.
  - by eapply merge_cell_blank.
Qed.

(** ** The applier does not fail on rendered rows *)




End ApplierFacts.

(** * The renderer and the applier meet their specification *)

Module TableSpec.
Import Docx Planner PlannerFacts Renderer RendererFacts Applier ApplierFacts Samples.





Example apply_own_sla_run :
  (λ rows : list row, (λ r : row, (cell_text <$> r !! 6, c_tcPr <$> r !! 6)) <$> rows)
    <$> apply_merges (plan own_sla_run) rendered_rows
  = Some [(Some "SLA", Some []);
          (Some "4h", Some [Shd "F2F2F2" "clear"; VMerge (Some "restart")]);
          (Some "", Some [Shd "F2F2F2" "clear"; VMerge None]);
          (Some "", Some [Shd "F2F2F2" "clear"; VMerge None]);
          (Some "", Some [])].
Proof. vm_compute. reflexivity. Qed.

(** C6.  The applier changes the SLA column only: it keeps the number of
    rows and the header row, and in every row it keeps the number of cells
    and every cell outside column 6 (text, runs and shading alike). *)
Theorem applier_touches_only_sla merges rows rows' :
  apply_merges merges rows = Some rows' →
  length rows' = length rows
  ∧ rows' !! 0 = rows !! 0
  ∧ ∀ i r, rows !! i = Some r →
      ∃ r', rows' !! i = Some r' ∧ length r' = length r
        ∧ ∀ c, c ≠ 6 → r' !! c = r !! c.
Proof.
  intros H. destruct (apply_merges_frame merges rows rows' H) as (L & H0 & F).
  split; [done|]. split; [done|].
  intros i r Hr.
  destruct (lookup_lt_is_Some_2 rows' i) as [r' Hr'].
  { rewrite L. by eapply lookup_lt_Some. }
  exists r'. split; [done|]. by apply (F i r r').
Qed.

Lemma applier_touches_only_sla_witness :
  length (default [] (apply_merges (plan own_sla_run) rendered_rows))
  = length rendered_rows
  ∧ default [] (apply_merges (plan own_sla_run) rendered_rows) !! 0
    = rendered_rows !! 0
  ∧ ∀ i r, rendered_rows !! i = Some r →
      ∃ r', default [] (apply_merges (plan own_sla_run) rendered_rows) !! i = Some r'
        ∧ length r' = length r
        ∧ ∀ c, c ≠ 6 → r' !! c = r !! c.
Proof.
  apply (applier_touches_only_sla (plan own_sla_run) rendered_rows).
  vm_compute. reflexivity.
Defined.

Example render_malformed_step :
  (λ r : row, cell_text <$> r) <$> render_row (replicate 7 new_cell) malformed_step
  = Some ["1.1"; "Check the request"; "Clerk"; "N/A"; "N/A"; "N/A"; ""].
Proof. vm_compute. reflexivity. Qed.

End TableSpec.

(** * Properties of the document assembler *)

Module BuildFacts.
Import Docx Planner PlannerFacts Renderer RendererFacts Applier ApplierFacts Build.

(** ** Loops that may raise *)


Lemma for_each_fails {A B : Type} (f : A → B → option A) x l a :
  f a x = None → for_each f a (x :: l) = None.
Proof. intros H. simpl. by rewrite H. Qed.

(** ** The front-matter font fix keeps the tables' shape *)

Lemma fix_front_matter_lookup_grid ts i :
  t_grid <$> fix_front_matter ts !! i = t_grid <$> ts !! i.
Proof.
  unfold fix_front_matter. generalize [0; 1; 2; 3; 4; 5]. intros idxs.
  revert ts. induction idxs as [|idx idxs IH]; intros ts; simpl; [done|].
  rewrite IH. case_bool_decide; [|done].
  rewrite list_lookup_alter. case_decide as Hi; [|done].
  subst. by destruct (ts !! i).
Qed.

Lemma fix_front_matter_length ts : length (fix_front_matter ts) = length ts.
Proof.
  unfold fix_front_matter. generalize [0; 1; 2; 3; 4; 5]. intros idxs.
  revert ts. induction idxs as [|idx idxs IH]; intros ts; simpl; [done|].
  rewrite IH. case_bool_decide; [|done]. apply length_alter.
Qed.

Lemma alter_out_of_range {A : Type} (f : A → A) (l : list A) i :
  length l ≤ i → alter f i l = l.
Proof.
  intros H. apply list_eq. intros j. rewrite list_lookup_alter.
  case_decide as E; [|done]. subst. by rewrite lookup_ge_None_2.
Qed.

Lemma guarded_alter {A : Type} (f : A → A) (l : list A) i :
  (if bool_decide (i < length l) then alter f i l else l) = alter f i l.
Proof.
  case_bool_decide; [done|]. symmetry. apply alter_out_of_range. lia.
Qed.

Lemma fix_front_matter_lookup_lt ts i :
  i < 6 → fix_front_matter ts !! i = fix_table <$> ts !! i.
Proof.
  intros Hi. unfold fix_front_matter; simpl. rewrite !guarded_alter.
  destruct i as [|[|[|[|[|[|i]]]]]]; [..|lia];
    rewrite ?list_lookup_alter_ne by lia;
    rewrite list_lookup_alter_eq;
    rewrite ?list_lookup_alter_ne by lia; done.
Qed.

Lemma fix_front_matter_lookup_ge ts i :
  6 ≤ i → fix_front_matter ts !! i = ts !! i.
Proof.
  intros Hi. unfold fix_front_matter; simpl.
  repeat (case_bool_decide; rewrite ?list_lookup_alter_ne by lia); done.
Qed.

(** ** [on_table] *)

Lemma on_table_inv i f ts ts' :
  on_table i f ts = Some ts' →
  length ts' = length ts ∧ (∀ j, j ≠ i → ts' !! j = ts !! j)
  ∧ (∀ t, ts !! i = Some t → ∃ t', f t = Some t' ∧ ts' !! i = Some t').
Proof.
  unfold on_table. destruct (ts !! i) as [t|] eqn:Ht.
  - destruct (f t) as [t'|] eqn:Hf; simpl; [|done].
    intros H; injection H as <-. split; [apply length_insert|].
    split; [intros j Hj; by apply list_lookup_insert_ne|].
    intros t0 H0. injection H0 as <-. exists t'. split; [done|].
    apply list_lookup_insert_eq. by eapply lookup_lt_Some.
  - intros H; injection H as <-. done.
Qed.


(** ** The two-column tables *)

Lemma pair_row_fails t a b bf : t_grid t < 2 → pair_row t a b bf = None.
Proof.
  intros H. unfold pair_row, new_row.
  destruct (t_grid t) as [|[|n]]; [done|done|lia].
Qed.




Lemma populate_pairs_fails t recs : t_grid t < 2 → populate_pairs t recs = None.
Proof.
  intros H. unfold populate_pairs.
  destruct recs as [|rec recs]; [by apply pair_row_fails|].
  apply for_each_fails. by apply pair_row_fails.
Qed.


(** ** The policies table *)

Lemma policy_row_fails t label txt : t_grid t < 2 → policy_row t label txt = None.
Proof.
  intros H. unfold policy_row, new_row.
  destruct (t_grid t) as [|[|n]]; [done|done|lia].
Qed.


Lemma populate_policies_fails t ps :
  t_grid t < 2 → populate_policies t ps = None.
Proof.
  intros H. unfold populate_policies.
  destruct ps as [|p ps]; [by apply policy_row_fails|].
  simpl. by rewrite policy_row_fails.
Qed.


(** ** The process table *)


Lemma process_table_fails t stp steps :
  t_grid t < 7 → process_table t (stp :: steps) = None.
Proof.
  intros H. unfold process_table.
  rewrite render_steps_fails; [done|]. done.
Qed.

Lemma process_table_inv t steps t' :
  process_table t steps = Some t' →
  t_grid t' = t_grid t
  ∧ ∃ rows, Forall2 (λ stp r, render_row (new_row t) stp = Some r) steps rows
      ∧ rows_same_but_sla (take 1 (t_rows t) ++ rows) (t_rows t').
Proof.
  unfold process_table. intros H.
  apply bind_Some in H as (t1 & H1 & H).
  apply bind_Some in H as (rows' & H2 & H). injection H as <-.
  destruct (render_steps_inv _ _ _ H1) as (Hg & rows & Hrows & HF).
  simpl in *. split; [done|]. exists rows. split; [done|].
  rewrite <- Hrows. by eapply apply_merges_frame.
Qed.


(** Planner, renderer and applier together: in the process table the
    build returns, the SLA cell of every step inside a planned range is
    shaded and merged as the range says, with the value on the range's
    first row only. *)
Lemma process_table_merges t steps t' m k :
  t_rows t ≠ [] →
  process_table t steps = Some t' →
  m ∈ plan steps → covers m k →
  ∃ r' c', t_rows t' !! S k = Some r' ∧ r' !! 6 = Some c'
    ∧ c_tcPr c' = merged_tcPr (r_start m) (r_end m) k
    ∧ (k = r_start m → Some (cell_text c') = r_value m)
    ∧ (k ≠ r_start m → cell_text c' = "").
Proof.
  intros Hh H Hin Hcov. unfold process_table in H.
  apply bind_Some in H as (t1 & H1 & H).
  apply bind_Some in H as (rows' & H2 & H). injection H as <-. simpl.
  destruct (render_steps_inv _ _ _ H1) as (_ & rows & Hrows & HF).
  simpl in Hrows. destruct (t_rows t) as [|h rest] eqn:Ht; [done|].
  simpl in Hrows.
  apply (apply_merges_effect (plan steps) (t_rows t1) rows' m k);
    try done.
  - apply plan_from_chain.
  - intros i r Hi Hr. rewrite Hrows in Hr.
    destruct i as [|i]; [lia|]. simpl in Hr.
    destruct (Forall2_lookup_r _ _ _ _ _ HF Hr) as (stp & _ & Hrr).
    by eapply render_row_sla_ready.
  - rewrite Hrows. simpl.
    apply list_elem_of_lookup in Hin as [n Hn].
    pose proof (plan_ranges_ok steps m (list_elem_of_lookup_2 _ _ _ Hn))
      as (Hb & _).
    apply Forall2_length in HF. destruct Hcov. lia.
Qed.

(** ** The whole build *)

Lemma build_inv doc ctx doc' :
  create_word_doc_from_template doc ctx = Some doc' →
  d_tables doc ≠ []
  ∧ (∀ t, d_tables doc !! 3 = Some t →
       is_Some (populate_pairs (fix_table t)
                  (abbreviation_pair <$> abbreviations_list ctx)))
  ∧ (∀ t, d_tables doc !! 4 = Some t →
       is_Some (populate_pairs (fix_table t)
                  (reference_pair <$> references_list ctx)))
  ∧ (∃ t t', d_tables doc !! 6 = Some t
       ∧ process_table t (steps ctx) = Some t'
       ∧ d_tables doc' !! 6 = Some t')
  ∧ (∀ t, d_tables doc !! 7 = Some t →
       is_Some (populate_policies t (general_policies_list ctx))).
Proof.
  unfold create_word_doc_from_template. intros H.
  case_bool_decide as Hnil; [done|]. split; [done|].
  apply bind_Some in H as (ts1 & H1 & H).
  apply bind_Some in H as (ts2 & H2 & H).
  apply bind_Some in H as (t6 & H6 & H).
  apply bind_Some in H as (t6' & Hp & H).
  apply bind_Some in H as (ts3 & H7 & H). injection H as <-. simpl.
  destruct (on_table_inv _ _ _ _ H1) as (L1 & N1 & E1).
  destruct (on_table_inv _ _ _ _ H2) as (L2 & N2 & E2).
  destruct (on_table_inv _ _ _ _ H7) as (L7 & N7 & E7).
  pose proof (fix_front_matter_lookup_lt (d_tables doc)) as Hfix.
  split; [|split; [|split]].
  - intros t Ht. destruct (E1 (fix_table t)) as (t' & -> & _); [|by eexists].
    rewrite Hfix by lia. by rewrite Ht.
  - intros t Ht. destruct (E2 (fix_table t)) as (t' & -> & _); [|by eexists].
    rewrite N1 by lia. rewrite Hfix by lia. by rewrite Ht.
  - exists t6, t6'. split; [|split; [done|]].
    + rewrite N2, N1, fix_front_matter_lookup_ge in H6 by lia. done.
    + rewrite N7 by lia. apply list_lookup_insert_eq.
      by eapply lookup_lt_Some.
  - intros t Ht. destruct (E7 t) as (t' & -> & _); [|by eexists].
    rewrite list_lookup_insert_ne by lia.
    rewrite N2, N1, fix_front_matter_lookup_ge by lia. done.
Qed.


End BuildFacts.

(** * The document assembler meets its specification *)

Module BuildSpec.
Import Docx Planner PlannerFacts Renderer RendererFacts Applier ApplierFacts.
Import Build BuildFacts Samples.

Example build_sample :
  (λ d, length ∘ t_rows <$> d_tables d)
    <$> create_word_doc_from_template template_doc sample_context
  = Some [1; 1; 1; 2; 2; 1; 5; 2].
Proof. vm_compute. reflexivity. Qed.



(** C9, as stated, fails: with no steps a process table that has only
    five columns goes unnoticed and a document is returned. *)
Lemma structural_abort_counterexample :
  (∃ t, d_tables narrow_doc !! 6 = Some t ∧ t_grid t < 7)
  ∧ create_word_doc_from_template narrow_doc empty_context ≠ None.
Proof.
  split.
  - eexists. split; [reflexivity|]. simpl. lia.
  - vm_compute. done.
Qed.

(** C9, amended.  The build returns [None], and so no document, when the
    template has no tables, when it has fewer than seven tables (no
    process table), when the abbreviation, reference or policy table has
    fewer than two columns, and when the process table has fewer than
    seven columns and there is at least one step to render. *)
Theorem structural_problem_aborts doc ctx :
  d_tables doc = []
  ∨ length (d_tables doc) ≤ 6
  ∨ (∃ t, d_tables doc !! 3 = Some t ∧ t_grid t < 2)
  ∨ (∃ t, d_tables doc !! 4 = Some t ∧ t_grid t < 2)
  ∨ (∃ t, d_tables doc !! 6 = Some t ∧ t_grid t < 7 ∧ steps ctx ≠ [])
  ∨ (∃ t, d_tables doc !! 7 = Some t ∧ t_grid t < 2) →
  create_word_doc_from_template doc ctx = None.
Proof.
  intros Hbad.
  destruct (create_word_doc_from_template doc ctx) as [doc'|] eqn:H; [|done].
  exfalso.
  destruct (build_inv doc ctx doc' H)
    as (Hne & H3 & H4 & (t6 & t6' & H6 & Hp & _) & H7).
  destruct Hbad as [Hnil|[Hlen|[(t & Ht & Hg)|[(t & Ht & Hg)|[(t & Ht & Hg & Hs)|(t & Ht & Hg)]]]]].
  - done.
  - apply lookup_lt_Some in H6. lia.
  - destruct (H3 t Ht) as [x Hx]. by rewrite populate_pairs_fails in Hx.
  - destruct (H4 t Ht) as [x Hx]. by rewrite populate_pairs_fails in Hx.
  - assert (t6 = t) as -> by congruence.
    destruct (steps ctx) as [|stp steps]; [done|].
    by rewrite process_table_fails in Hp.
  - destruct (H7 t Ht) as [x Hx]. by rewrite populate_policies_fails in Hx.
Qed.

Lemma structural_problem_aborts_witness :
  create_word_doc_from_template narrow_doc sample_context = None.
Proof.
  apply (structural_problem_aborts narrow_doc sample_context).
  right. right. right. right. left.
  exists (simple_table 5). split; [reflexivity|]. split; [simpl; lia|done].
Defined.

End BuildSpec.

(** * Further properties of the planner *)

Module PlannerMore.
Import Planner PlannerFacts Samples.

Section Coverage.
Variable steps : list step.

(** The ranges emitted before the scan reaches [idx] end before [idx]. *)
Lemma reaches_split idx :
  reaches steps idx →
  ∃ pre, plan steps = pre ++ plan_from steps idx
    ∧ Forall (λ r, r_end r < idx) pre.
Proof.
  induction 1 as [|idx Hr (pre & IH & Hpre) Hlt].
  - exists []. split; [done|constructor].
  - exists (pre ++ emit steps idx).
    rewrite IH, plan_from_unfold by done. split; [by rewrite app_assoc|].
    pose proof (next_bounds steps idx Hlt) as [[Hn _] _].
    apply Forall_app. split.
    + eapply Forall_impl; [done|]. simpl. intros r Hr'. lia.
    + apply Forall_forall. intros r Hin.
      apply (emit_shape steps) in Hin as [_ Hn']. lia.
Qed.

(** A step that is neither a gateway nor owns an SLA nor belongs to a
    group lies in no range. *)
Lemma plain_step_uncovered i s r :
  steps !! i = Some s → is_gateway s = false →
  truthy (sla s) = false → truthy (sla_group s) = false →
  r ∈ plan steps → ¬ covers r i.
Proof.
  intros Hs Hgw Ht Hg Hin [C1 C2].
  destruct (reaches_split i (reaches_task steps i s Hs Hgw Hg))
    as (pre & Hplan & Hpre).
  rewrite Hplan in Hin. apply elem_of_app in Hin as [Hin|Hin].
  - rewrite Forall_forall in Hpre. specialize (Hpre r Hin). lia.
  - rewrite plan_from_unfold in Hin by (by eapply lookup_lt_Some).
    destruct (round_skip steps i s Hs Hg Ht) as (He & Hn & _).
    rewrite He in Hin. simpl in Hin.
    destruct (chain_elem _ _ _ (plan_from_chain steps _) Hin) as [? _]. lia.
Qed.

(** The step behind the end of a group's range does not carry the
    group's key. *)
Lemma plan_from_group_closed idx :
  Forall (λ r, ∀ s0, steps !! r_start r = Some s0 →
               truthy (sla_group s0) = true →
               group_at steps (sla_group s0) (S (r_end r)) = false)
         (plan_from steps idx).
Proof.
  apply (plan_from_ind steps
           (λ _ rs, Forall (λ r, ∀ s0, steps !! r_start r = Some s0 →
               truthy (sla_group s0) = true →
               group_at steps (sla_group s0) (S (r_end r)) = false) rs));
    [intros; constructor|].
  clear idx. intros idx Hlt IH.
  destruct (lookup_lt_is_Some_2 steps idx Hlt) as [s Hs].
  destruct (truthy (sla_group s)) eqn:Hg.
  - destruct (round_group steps idx s Hs Hg) as (e & -> & _ & _ & _ & _ & Hc).
    simpl. constructor; [|done].
    unfold r_start, r_end; simpl. intros s0 Hs0 _.
    assert (s0 = s) as -> by congruence. done.
  - destruct (truthy (sla s)) eqn:Ht.
    + destruct (round_own steps idx s Hs Ht Hg) as (e & -> & _).
      simpl. constructor; [|done].
      unfold r_start; simpl. intros s0 Hs0 Hg0.
      assert (s0 = s) as -> by congruence. congruence.
    + destruct (round_skip steps idx s Hs Hg Ht) as (-> & _). done.
Qed.

Lemma chain_length lo n rs :
  chain lo rs → Forall (λ r, r_end r < n) rs → length rs ≤ n - lo.
Proof.
  induction 1 as [lo|lo s e v rs H1 H2 Hc IH]; intros HF; simpl; [lia|].
  apply Forall_cons in HF as [He HF]. unfold r_end in He; simpl in He.
  specialize (IH HF). lia.
Qed.

Lemma owner_is_covered i s :
  steps !! i = Some s → is_gateway s = false →
  truthy (sla s) = true ∨ truthy (sla_group s) = true →
  ∃ r, r ∈ plan steps ∧ covers r i.
Proof.
  intros Hs Hgw Hown.
  destruct (truthy (sla_group s)) eqn:Hg.
  - destruct (scan_or_absorbed steps i s Hs Hgw) as [Hr|(r & s0 & Hin & Hr & _)].
    + destruct (round_group steps i s Hs Hg) as (e & He & _ & Hb & _).
      exists (i, e, sla s). split.
      { apply (reaches_emit steps i); [done|]. rewrite He. by left. }
      unfold covers, r_start, r_end; simpl. lia.
    + exists r. split; [done|]. unfold covers. lia.
  - destruct Hown as [Ht|?]; [|done].
    destruct (round_own steps i s Hs Ht Hg) as (e & He & _ & Hb & _).
    exists (i, e, sla s). split.
    { apply (reaches_emit steps i);
        [by apply (reaches_task steps i s)|]. rewrite He. by left. }
    unfold covers, r_start, r_end; simpl. lia.
Qed.
End Coverage.

(** X1.  A step that is not a gateway lies in a range of the plan exactly
    when it has a non-empty [sla] or a non-empty [sla_group]. *)
Theorem task_covered_iff_owner steps i s :
  steps !! i = Some s → is_gateway s = false →
  (∃ r, r ∈ plan steps ∧ covers r i)
  ↔ truthy (sla s) = true ∨ truthy (sla_group s) = true.
Proof.
  intros Hs Hgw. split.
  - intros (r & Hin & Hcov).
    destruct (truthy (sla s)) eqn:Ht; [by left|].
    destruct (truthy (sla_group s)) eqn:Hg; [by right|].
    destruct (plain_step_uncovered steps i s r); done.
  - by apply owner_is_covered.
Qed.

Lemma task_covered_iff_owner_witness :
  (∃ r, r ∈ plan group_run ∧ covers r 4)
  ↔ truthy (sla (task_group "G" "24h")) = true
    ∨ truthy (sla_group (task_group "G" "24h")) = true.
Proof.
  apply (task_covered_iff_owner group_run 4 (task_group "G" "24h")).
  - reflexivity.
  - reflexivity.
Defined.

(** X2.  Inside a range, every step behind the start that is not a
    gateway carries the same non-empty group key as the step at the start;
    so the range of a step without a group key holds that step and
    gateways only, and a range never spans two different group keys. *)
Theorem range_holds_one_group steps r :
  r ∈ plan steps →
  ∃ s0, steps !! r_start r = Some s0
    ∧ (∀ k s, r_start r < k ≤ r_end r → steps !! k = Some s →
         is_gateway s = false →
         truthy (sla_group s0) = true ∧ sla_group s = sla_group s0)
    ∧ (truthy (sla_group s0) = false →
       ∀ k, r_start r < k ≤ r_end r → gateway_at steps k = true).
Proof.
  intros Hin.
  destruct (plan_ranges_ok steps r Hin) as (_ & _ & _ & s0 & Hs0 & _ & _ & Hall).
  exists s0. split; [done|]. split.
  - intros k s Hk Hs Hgw.
    destruct (Hall k Hk) as [E|[Hg E]].
    + unfold gateway_at in E. rewrite Hs in E. congruence.
    + unfold group_at in E. rewrite Hs in E.
      apply bool_decide_eq_true in E. done.
  - intros Hg k Hk. destruct (Hall k Hk) as [E|[Hg' _]]; [done|congruence].
Qed.

Lemma range_holds_one_group_witness :
  ∃ s0, group_run !! r_start (2, 4, Some "24h") = Some s0
    ∧ (∀ k s, r_start (2, 4, Some "24h") < k ≤ r_end (2, 4, Some "24h") →
         group_run !! k = Some s → is_gateway s = false →
         truthy (sla_group s0) = true ∧ sla_group s = sla_group s0)
    ∧ (truthy (sla_group s0) = false →
       ∀ k, r_start (2, 4, Some "24h") < k ≤ r_end (2, 4, Some "24h") →
            gateway_at group_run k = true).
Proof.
  apply (range_holds_one_group group_run (2, 4, Some "24h")).
  vm_compute. left.
Defined.

(** X3.  Members of a group that follow each other with nothing but
    gateways and members of the same group between them are never split:
    the range that covers the first also covers the last. *)
Theorem group_run_in_one_range steps i j si :
  steps !! i = Some si → is_gateway si = false →
  truthy (sla_group si) = true →
  i ≤ j < length steps →
  (∀ k, i < k ≤ j →
     gateway_at steps k = true ∨ group_at steps (sla_group si) k = true) →
  ∃ r, r ∈ plan steps ∧ covers r i ∧ covers r j.
Proof.
  intros Hi Hgw Hg Hij Hrun.
  assert (∃ r, r ∈ plan steps ∧ covers r i) as (r & Hin & Hcov).
  { apply (owner_is_covered steps i si Hi Hgw). by right. }
  exists r. split; [done|]. split; [done|].
  destruct Hcov as [C1 C2]. split; [lia|].
  destruct (decide (j ≤ r_end r)) as [|Hn]; [done|exfalso].
  destruct (plan_ranges_ok steps r Hin)
    as (_ & _ & Hend & s0 & Hs0 & _ & _ & Hall).
  assert (truthy (sla_group s0) = true ∧ sla_group si = sla_group s0)
    as [Hg0 Hsame].
  { destruct (decide (r_start r = i)) as [E|E].
    - rewrite E in Hs0. assert (s0 = si) as -> by congruence. done.
    - destruct (Hall i) as [G|[G1 G2]]; [lia| |].
      + unfold gateway_at in G. rewrite Hi in G. congruence.
      + unfold group_at in G2. rewrite Hi in G2.
        apply bool_decide_eq_true in G2. done. }
  pose proof (plan_from_group_closed steps 0) as Hcl.
  rewrite Forall_forall in Hcl. specialize (Hcl r Hin s0 Hs0 Hg0).
  destruct (Hrun (S (r_end r))) as [G|G]; [lia|congruence|].
  rewrite Hsame in G. congruence.
Qed.

Lemma group_run_in_one_range_witness :
  ∃ r, r ∈ plan group_run ∧ covers r 2 ∧ covers r 4.
Proof.
  apply (group_run_in_one_range group_run 2 4 (task_group "G" "24h")).
  - reflexivity.
  - reflexivity.
  - reflexivity.
  - simpl. lia.
  - intros k Hk.
    destruct k as [|[|[|[|[|k]]]]]; try lia; vm_compute; auto.
Defined.

(** X4.  The plan lists its ranges in increasing order, every range lies
    inside the step sequence with its start not behind its end, and there
    are at most as many ranges as steps. *)
Theorem plan_sorted_bounded steps :
  (∀ i j r1 r2, plan steps !! i = Some r1 → plan steps !! j = Some r2 →
     i < j → r_end r1 < r_start r2)
  ∧ (∀ r, r ∈ plan steps → r_start r ≤ r_end r < length steps)
  ∧ length (plan steps) ≤ length steps.
Proof.
  pose proof (plan_from_chain steps 0) as Hc. fold (plan steps) in Hc.
  assert (∀ r, r ∈ plan steps → r_start r ≤ r_end r < length steps) as Hb.
  { intros r Hin. by destruct (plan_ranges_ok steps r Hin) as (Hb & _). }
  split; [|split; [done|]].
  - intros i j r1 r2 Hi Hj Hlt. by eapply chain_lookup_lt.
  - pose proof (chain_length 0 (length steps) (plan steps) Hc) as Hl.
    rewrite Nat.sub_0_r in Hl. apply Hl.
    apply Forall_forall. intros r Hin. by apply Hb.
Qed.

End PlannerMore.

(** * Further properties of the row renderer *)

Module RendererMore.
Import Docx Renderer RendererFacts Text Samples.

Lemma rendered_cells_tcPr stp cells cs i :
  rendered_cells stp cells = Some cs →
  c_tcPr <$> cs !! i = c_tcPr <$> cells !! i.
Proof.
  destruct cells as [|c0 [|c1 [|c2 [|c3 [|c4 [|c5 [|c6 rest]]]]]]];
    simpl; intros H; try done.
  injection H as <-.
  destruct i as [|[|[|[|[|[|[|i]]]]]]]; try done.
  simpl. unfold description_cell.
  assert (∀ l d, c_tcPr (foldl add_description_paragraph d l) = c_tcPr d) as E.
  { induction l as [|pd l IH]; intros d; simpl; [done|]. by rewrite IH. }
  by rewrite E.
Qed.





(** X5.  For a gateway step the renderer replaces the shading of every
    cell of the row except the SLA cell by the one fill "D9D9D9" and keeps
    the cell's other properties; for any other step, and for the SLA cell
    of every step, it leaves the cell properties as they were. *)
Theorem gateway_rows_are_shaded cells stp r :
  render_row cells stp = Some r →
  (is_gateway stp = false →
   ∀ i, c_tcPr <$> r !! i = c_tcPr <$> cells !! i)
  ∧ (is_gateway stp = true →
     ∀ i c, cells !! i = Some c →
       c_tcPr <$> r !! i
       = Some (if i =? 6 then c_tcPr c
               else filter (λ p, is_shd p = false) (c_tcPr c)
                    ++ [Shd "D9D9D9" "clear"])).
Proof.
  rewrite render_row_closed.
  destruct (rendered_cells stp cells) as [cs|] eqn:E; simpl; [|done].
  intros H; injection H as <-. split; intros Hgw; rewrite Hgw.
  - intros i. by eapply rendered_cells_tcPr.
  - intros i c Hc. rewrite shade_gateway_lookup.
    pose proof (rendered_cells_tcPr stp cells cs i E) as Ht.
    rewrite Hc in Ht. simpl in Ht.
    destruct (cs !! i) as [c'|]; [|done]. simpl in *.
    injection Ht as Ht. destruct (i =? 6); simpl; by rewrite Ht.
Qed.

Lemma gateway_rows_are_shaded_witness :
  (is_gateway gateway = false →
   ∀ i, c_tcPr <$> default [] (render_row (replicate 7 new_cell) gateway) !! i
        = c_tcPr <$> replicate 7 new_cell !! i)
  ∧ (is_gateway gateway = true →
     ∀ i c, replicate 7 new_cell !! i = Some c →
       c_tcPr <$> default [] (render_row (replicate 7 new_cell) gateway) !! i
       = Some (if i =? 6 then c_tcPr c
               else filter (λ p, is_shd p = false) (c_tcPr c)
                    ++ [Shd "D9D9D9" "clear"])).
Proof.
  apply (gateway_rows_are_shaded (replicate 7 new_cell) gateway).
  vm_compute. reflexivity.
Defined.



End RendererMore.

(** * Further properties of the merge applier *)

Module ApplierMore.
Import Docx Planner PlannerFacts PlannerMore Renderer RendererFacts.
Import Applier ApplierFacts Build BuildFacts Samples.

(** The applier changes no row outside the rows of its ranges: the row at
    table index [i] stays when [i] is not the row of a step of a range. *)
Lemma apply_merges_outside merges rows rows' i :
  apply_merges merges rows = Some rows' →
  (∀ m, m ∈ merges → i < S (r_start m) ∨ S (S (r_end m)) ≤ i) →
  rows' !! i = rows !! i.
Proof.
  unfold apply_merges. revert rows.
  induction merges as [|[[s e] v] merges IH]; intros rows H Hun; simpl in H.
  { by injection H as <-. }
  destruct (apply_range_rows s e v (seq s (e + 1 - s)) rows)
    as [rows1|] eqn:H1; simpl in H; [|done].
  rewrite (IH rows1 H) by (intros m Hm; apply Hun; by right).
  destruct (apply_range_rows_seq _ _ _ _ _ _ _ H1) as [F _].
  apply F.
  assert (i < S s ∨ S (S e) ≤ i) as Hc by (apply (Hun (s, e, v)); by left).
  lia.
Qed.

(** X7.  The applier leaves every row alone whose step lies in no range:
    whatever the ranges are, such a row is after the applier what it was
    before, SLA cell included. *)
Theorem uncovered_rows_untouched merges rows rows' k :
  apply_merges merges rows = Some rows' →
  (∀ m, m ∈ merges → ¬ covers m k) →
  rows' !! S k = rows !! S k.
Proof.
  intros H Hun. apply (apply_merges_outside merges rows rows' (S k) H).
  intros m Hm. specialize (Hun m Hm). unfold covers in Hun.
  destruct (decide (k < r_start m)) as [|Hs]; [left; lia|].
  destruct (decide (r_end m < k)) as [|He]; [right; lia|].
  exfalso. apply Hun. lia.
Qed.

Lemma uncovered_rows_untouched_witness :
  default [] (apply_merges (plan own_sla_run) rendered_rows) !! 4
  = rendered_rows !! 4.
Proof.
  apply (uncovered_rows_untouched (plan own_sla_run) rendered_rows _ 3).
  - vm_compute. reflexivity.
  - intros m Hm. rewrite PlannerSpec.plan_own_sla_run in Hm.
    apply list_elem_of_singleton in Hm as ->.
    unfold covers, r_start, r_end; simpl. lia.
Defined.

(** X8.  In the process table the build makes from a table with a header
    row, the row of a step that is no gateway and has neither an [sla] nor
    an [sla_group] is exactly the row the renderer made: its SLA cell has
    no text, no shading and no vertical merge. *)
Theorem plain_step_row_is_blank t steps t' i s :
  t_rows t ≠ [] →
  process_table t steps = Some t' →
  steps !! i = Some s → is_gateway s = false →
  truthy (sla s) = false → truthy (sla_group s) = false →
  ∃ r c, render_row (new_row t) s = Some r
    ∧ t_rows t' !! S i = Some r
    ∧ r !! 6 = Some c ∧ cell_text c = "" ∧ c_tcPr c = [].
Proof.
  intros Hh H Hs Hgw Ht Hg. unfold process_table in H.
  apply bind_Some in H as (t1 & H1 & H).
  apply bind_Some in H as (rows' & H2 & H). injection H as <-. simpl.
  destruct (render_steps_inv _ _ _ H1) as (_ & rows & Hrows & HF).
  simpl in Hrows. destruct (t_rows t) as [|h rest] eqn:Et; [done|].
  simpl in Hrows.
  destruct (Forall2_lookup_l _ _ _ _ _ HF Hs) as (r & Hr & Hrr).
  pose proof (render_row_sla_ready t s r Hrr) as Hready.
  unfold sla_ready in Hready.
  destruct (r !! 6) as [c|] eqn:Hc; [|done].
  exists r, c. split; [done|]. split.
  - rewrite (apply_merges_outside (plan steps) (t_rows t1) rows' (S i) H2).
    + rewrite Hrows. done.
    + intros m Hm.
      pose proof (plain_step_uncovered steps i s m Hs Hgw Ht Hg Hm) as Hun.
      unfold covers in Hun. lia.
  - split; [done|].
    destruct c as [ps tc]. unfold blank_sla_cell in Hready; simpl in *.
    destruct tc as [|? ?]; [|done].
    destruct ps as [|[a runs] [|? ?]]; try done. simpl in Hready.
    destruct runs as [|r0 rs]; [done|]. split; [|done].
    simpl in Hready. apply andb_true_iff in Hready as [Hr0 Hrs].
    apply String.eqb_eq in Hr0.
    transitivity (run_text r0); [|done].
    exact (concat_blank_runs (run_text r0) rs Hrs).
Qed.

Lemma plain_step_row_is_blank_witness :
  ∃ r c, render_row (new_row process_template) plain = Some r
    ∧ t_rows (default process_template
                (process_table process_template own_sla_run)) !! 4 = Some r
    ∧ r !! 6 = Some c ∧ cell_text c = "" ∧ c_tcPr c = [].
Proof.
  apply (plain_step_row_is_blank process_template own_sla_run _ 3 plain).
  - done.
  - vm_compute. reflexivity.
  - reflexivity.
  - reflexivity.
  - reflexivity.
  - reflexivity.
Defined.




Example mixed_group_aborts : process_table process_template mixed_group = None.
Proof. vm_compute. reflexivity. Qed.

End ApplierMore.

(** * Further properties of the document assembler *)

Module BuildMore.
Import Docx Planner PlannerFacts Renderer RendererFacts.
Import Applier ApplierFacts Build BuildFacts Text Samples.

(** ** Loops that keep an invariant *)

Lemma for_each_inv {A B : Type} (f : A → B → option A) (I : A → Prop) l a a' :
  (∀ a x a', I a → f a x = Some a' → I a') →
  I a → for_each f a l = Some a' → I a'.
Proof.
  intros Hf. revert a. induction l as [|x l IH]; intros a Ha H; simpl in H.
  { by injection H as <-. }
  apply bind_Some in H as (a1 & H1 & H). eapply IH; [|done]. by eapply Hf.
Qed.

(** ** Where each table of the returned document comes from *)

Lemma build_lookup doc ctx doc' :
  create_word_doc_from_template doc ctx = Some doc' →
  length (d_tables doc') = length (d_tables doc)
  ∧ (∀ i, i ∉ [3; 4; 6; 7] →
       d_tables doc' !! i = fix_front_matter (d_tables doc) !! i)
  ∧ (∀ t, d_tables doc !! 3 = Some t →
       ∃ t', populate_pairs (fix_table t)
               (abbreviation_pair <$> abbreviations_list ctx) = Some t'
             ∧ d_tables doc' !! 3 = Some t')
  ∧ (∀ t, d_tables doc !! 4 = Some t →
       ∃ t', populate_pairs (fix_table t)
               (reference_pair <$> references_list ctx) = Some t'
             ∧ d_tables doc' !! 4 = Some t')
  ∧ (∃ t t', d_tables doc !! 6 = Some t
       ∧ process_table t (steps ctx) = Some t'
       ∧ d_tables doc' !! 6 = Some t')
  ∧ (∀ t, d_tables doc !! 7 = Some t →
       ∃ t', populate_policies t (general_policies_list ctx) = Some t'
             ∧ d_tables doc' !! 7 = Some t').
Proof.
  unfold create_word_doc_from_template. intros H.
  case_bool_decide as Hnil; [done|].
  apply bind_Some in H as (ts1 & H1 & H).
  apply bind_Some in H as (ts2 & H2 & H).
  apply bind_Some in H as (t6 & H6 & H).
  apply bind_Some in H as (t6' & Hp & H).
  apply bind_Some in H as (ts3 & H7 & H). injection H as <-. simpl.
  destruct (on_table_inv _ _ _ _ H1) as (L1 & N1 & E1).
  destruct (on_table_inv _ _ _ _ H2) as (L2 & N2 & E2).
  destruct (on_table_inv _ _ _ _ H7) as (L7 & N7 & E7).
  pose proof (fix_front_matter_lookup_lt (d_tables doc)) as Hfix.
  pose proof (fix_front_matter_length (d_tables doc)) as L0.
  assert (6 < length ts2) as Hl6 by (by eapply lookup_lt_Some).
  split; [|split; [|split; [|split; [|split]]]].
  - rewrite L7, length_insert. lia.
  - intros i Hi.
    assert (i ≠ 3 ∧ i ≠ 4 ∧ i ≠ 6 ∧ i ≠ 7) as (? & ? & ? & ?).
    { repeat split; intros ->; apply Hi; set_solver. }
    rewrite N7 by done. rewrite list_lookup_insert_ne by done.
    rewrite N2, N1 by done. done.
  - intros t Ht. destruct (E1 (fix_table t)) as (t' & Hf & Ht').
    { rewrite Hfix by lia. by rewrite Ht. }
    exists t'. split; [done|].
    rewrite N7 by lia. rewrite list_lookup_insert_ne by lia.
    rewrite N2 by lia. done.
  - intros t Ht. destruct (E2 (fix_table t)) as (t' & Hf & Ht').
    { rewrite N1 by lia. rewrite Hfix by lia. by rewrite Ht. }
    exists t'. split; [done|].
    rewrite N7 by lia. rewrite list_lookup_insert_ne by lia. done.
  - exists t6, t6'. split; [|split; [done|]].
    + rewrite N2, N1, fix_front_matter_lookup_ge in H6 by lia. done.
    + rewrite N7 by lia. by apply list_lookup_insert_eq.
  - intros t Ht. apply E7.
    rewrite list_lookup_insert_ne by lia.
    rewrite N2, N1, fix_front_matter_lookup_ge by lia. done.
Qed.

(** ** The tables keep their number of columns *)

Lemma pair_row_inv t a b bf t' :
  pair_row t a b bf = Some t' → ∃ r, t' = append_row t r.
Proof.
  unfold pair_row. intros H.
  apply bind_Some in H as (c0 & _ & H).
  apply bind_Some in H as (c1 & _ & H).
  apply bind_Some in H as (cells & _ & H). injection H as <-. by eexists.
Qed.

Lemma populate_pairs_grid t recs t' :
  populate_pairs t recs = Some t' → t_grid t' = t_grid t.
Proof.
  unfold populate_pairs. destruct recs as [|rec recs].
  - intros H. apply pair_row_inv in H as [r ->]. done.
  - intros H.
    apply (for_each_inv (λ t rec, pair_row t rec.1 rec.2 true)
             (λ t0, t_grid t0 = t_grid t) (rec :: recs) (clear_rows 2 t));
      [|done|done].
    intros a x a' Ha Hx. apply pair_row_inv in Hx as [r ->]. done.
Qed.

Lemma policy_row_inv t label txt t' :
  policy_row t label txt = Some t' → ∃ r, t' = append_row t r.
Proof.
  unfold policy_row. intros H.
  apply bind_Some in H as (c0 & _ & H).
  apply bind_Some in H as (p0 & _ & H).
  apply bind_Some in H as (c1 & _ & H).
  apply bind_Some in H as (p1 & _ & H). injection H as <-. by eexists.
Qed.

Lemma populate_policies_grid t ps t' :
  populate_policies t ps = Some t' → t_grid t' = t_grid t.
Proof.
  unfold populate_policies. destruct ps as [|p ps].
  - intros H. apply policy_row_inv in H as [r ->]. done.
  - intros H.
    apply (for_each_inv
             (λ t (p : nat * policy_item),
                policy_row t (pretty p.1) (default "" (policy p.2)))
             (λ t0, t_grid t0 = t_grid t)
             (imap (λ idx p, (S idx, p)) (p :: ps)) (clear_rows 1 t));
      [|done|done].
    intros a x a' Ha Hx. apply policy_row_inv in Hx as [r ->]. done.
Qed.

(** X10.  A build that returns a document keeps the number of tables and
    the number of columns of every table, and leaves every table from
    index 8 on exactly as it was. *)
Theorem build_keeps_table_shape doc ctx doc' :
  create_word_doc_from_template doc ctx = Some doc' →
  length (d_tables doc') = length (d_tables doc)
  ∧ (∀ i, t_grid <$> d_tables doc' !! i = t_grid <$> d_tables doc !! i)
  ∧ (∀ i, 8 ≤ i → d_tables doc' !! i = d_tables doc !! i).
Proof.
  intros H.
  destruct (build_lookup doc ctx doc' H)
    as (L & Hother & H3 & H4 & (t6 & t6' & H6 & Hp & H6') & H7).
  split; [done|]. split.
  - intros i.
    destruct (decide (i = 3)) as [->|N3].
    { destruct (d_tables doc !! 3) as [t|] eqn:Ht.
      - destruct (H3 t eq_refl) as (t' & Hf & ->). simpl.
        by rewrite (populate_pairs_grid _ _ _ Hf).
      - rewrite lookup_ge_None_2; [done|].
        rewrite L. by apply lookup_ge_None_1. }
    destruct (decide (i = 4)) as [->|N4].
    { destruct (d_tables doc !! 4) as [t|] eqn:Ht.
      - destruct (H4 t eq_refl) as (t' & Hf & ->). simpl.
        by rewrite (populate_pairs_grid _ _ _ Hf).
      - rewrite lookup_ge_None_2; [done|].
        rewrite L. by apply lookup_ge_None_1. }
    destruct (decide (i = 6)) as [->|N6].
    { rewrite H6, H6'. simpl.
      by destruct (process_table_inv _ _ _ Hp) as [-> _]. }
    destruct (decide (i = 7)) as [->|N7].
    { destruct (d_tables doc !! 7) as [t|] eqn:Ht.
      - destruct (H7 t eq_refl) as (t' & Hf & ->). simpl.
        by rewrite (populate_policies_grid _ _ _ Hf).
      - rewrite lookup_ge_None_2; [done|].
        rewrite L. by apply lookup_ge_None_1. }
    rewrite Hother; [apply fix_front_matter_lookup_grid|].
    intros Hin. repeat (apply elem_of_cons in Hin as [->|Hin]; [done|]).
    by apply elem_of_nil in Hin.
  - intros i Hi. rewrite Hother.
    + apply fix_front_matter_lookup_ge. lia.
    + intros Hin. repeat (apply elem_of_cons in Hin as [->|Hin]; [lia|]).
      by apply elem_of_nil in Hin.
Qed.

Lemma build_keeps_table_shape_witness :
  length (d_tables (default template_doc
            (create_word_doc_from_template template_doc sample_context)))
  = length (d_tables template_doc)
  ∧ (∀ i, t_grid <$> d_tables (default template_doc
            (create_word_doc_from_template template_doc sample_context)) !! i
          = t_grid <$> d_tables template_doc !! i)
  ∧ (∀ i, 8 ≤ i →
       d_tables (default template_doc
            (create_word_doc_from_template template_doc sample_context)) !! i
       = d_tables template_doc !! i).
Proof.
  apply (build_keeps_table_shape template_doc sample_context).
  vm_compute. reflexivity.
Defined.

(** ** The front-matter font fix *)

Lemma fix_cell_text c : cell_text (fix_cell c) = cell_text c.
Proof.
  unfold cell_text, fix_cell; simpl. f_equal.
  rewrite <- list_fmap_compose. apply list_fmap_ext. intros _ p _.
  unfold paragraph_text; simpl. f_equal.
  rewrite <- list_fmap_compose. by apply list_fmap_ext.
Qed.

Lemma fix_table_texts t :
  (λ r : row, cell_text <$> r) <$> t_rows (fix_table t)
  = (λ r : row, cell_text <$> r) <$> t_rows t.
Proof.
  unfold fix_table; simpl. rewrite <- list_fmap_compose.
  apply list_fmap_ext. intros _ r _. simpl.
  rewrite <- list_fmap_compose. apply list_fmap_ext. intros _ c _.
  apply fix_cell_text.
Qed.

Lemma fix_table_fonts t r c p rn :
  r ∈ t_rows (fix_table t) → c ∈ r → p ∈ c_paragraphs c → rn ∈ p_runs p →
  font_name rn = Some avenir ∧ font_pt rn = Some 12%Z.
Proof.
  unfold fix_table; simpl. intros Hr Hc Hp Hrn.
  apply list_elem_of_fmap in Hr as (r0 & -> & _).
  apply list_elem_of_fmap in Hc as (c0 & -> & _).
  apply list_elem_of_fmap in Hp as (p0 & -> & _).
  apply list_elem_of_fmap in Hrn as (rn0 & -> & _). done.
Qed.

(** X11.  In the returned document the front-matter tables 0, 1, 2 and 5
    show the same text in every cell as in the template, and every run in
    them is set in "Avenir LT Std 45 Book", 12 pt. *)
Theorem front_matter_keeps_text doc ctx doc' i t :
  create_word_doc_from_template doc ctx = Some doc' →
  i ∈ [0; 1; 2; 5] → d_tables doc !! i = Some t →
  ∃ t', d_tables doc' !! i = Some t'
    ∧ (λ r : row, cell_text <$> r) <$> t_rows t'
      = (λ r : row, cell_text <$> r) <$> t_rows t
    ∧ ∀ r c p rn, r ∈ t_rows t' → c ∈ r → p ∈ c_paragraphs c →
        rn ∈ p_runs p →
        font_name rn = Some avenir ∧ font_pt rn = Some 12%Z.
Proof.
  intros H Hi Ht.
  destruct (build_lookup doc ctx doc' H) as (_ & Hother & _).
  assert (i < 6 ∧ i ∉ [3; 4; 6; 7]) as [Hlt Hni].
  { repeat (apply elem_of_cons in Hi as [->|Hi];
            [split; [lia|];
             intros Hin;
             repeat (apply elem_of_cons in Hin as [?|Hin]; [done|]);
             by apply elem_of_nil in Hin|]).
    by apply elem_of_nil in Hi. }
  exists (fix_table t). split.
  - rewrite (Hother i Hni), fix_front_matter_lookup_lt by done.
    by rewrite Ht.
  - split; [apply fix_table_texts|apply fix_table_fonts].
Qed.

Lemma front_matter_keeps_text_witness :
  ∃ t', d_tables (default template_doc
          (create_word_doc_from_template template_doc sample_context)) !! 5
        = Some t'
    ∧ (λ r : row, cell_text <$> r) <$> t_rows t'
      = (λ r : row, cell_text <$> r) <$> t_rows (simple_table 2)
    ∧ ∀ r c p rn, r ∈ t_rows t' → c ∈ r → p ∈ c_paragraphs c →
        rn ∈ p_runs p →
        font_name rn = Some avenir ∧ font_pt rn = Some 12%Z.
Proof.
  apply (front_matter_keeps_text template_doc sample_context _ 5 (simple_table 2)).
  - vm_compute. reflexivity.
  - do 3 right. left.
  - reflexivity.
Defined.

(** ** The two-column tables, row by row *)


Lemma new_cell_text : cell_text new_cell = "".
Proof. done. Qed.






(** ** The policies table, row by row *)





Example policies_numbering :
  (λ t, (λ r : row, cell_text <$> r) <$> t_rows t)
    <$> populate_policies (simple_table 2)
          [PolicyItem (Some "Keep records"); PolicyItem None;
           PolicyItem (Some "Review yearly")]
  = Some [["h"; "h"]; ["1"; "Keep records"]; ["2"; ""]; ["3"; "Review yearly"]].
Proof. vm_compute. reflexivity. Qed.

(** ** When the build returns a document *)


Example build_without_policies_table :
  is_Some (create_word_doc_from_template
             (Document (take 7 (d_tables template_doc)) None) sample_context).
Proof. vm_compute. by eexists. Qed.

End BuildMore.

(** * Properties of the request handlers *)

Module HandlersFacts.
Import Handlers.

(** ** Stripping *)

Lemma rstrip_ends_clean s : ends_clean (rstrip s) = true.
Proof.
  induction s as [|c r IH]; [done|]. simpl.
  destruct (rstrip r) as [|c' r'] eqn:E.
  - destruct (is_space c) eqn:Hc; simpl; [done|by rewrite Hc].
  - exact IH.
Qed.

Lemma lstrip_ends_clean s : ends_clean s = true → ends_clean (lstrip s) = true.
Proof.
  induction s as [|c r IH]; [done|]. intros H. simpl.
  destruct (is_space c) eqn:Hc; [|done].
  apply IH. destruct r; [done|exact H].
Qed.

Lemma lstrip_starts_clean s : starts_clean (lstrip s) = true.
Proof.
  induction s as [|c r IH]; [done|]. simpl.
  destruct (is_space c) eqn:Hc; [done|]. simpl. by rewrite Hc.
Qed.

Lemma lstrip_clean s : starts_clean s = true → lstrip s = s.
Proof.
  destruct s as [|c r]; [done|]. simpl. intros H.
  by destruct (is_space c).
Qed.

Lemma rstrip_clean s : ends_clean s = true → rstrip s = s.
Proof.
  induction s as [|c r IH]; [done|]. intros H.
  destruct r as [|c' r'].
  - simpl in *. by destruct (is_space c).
  - change (ends_clean (String c' r') = true) in H.
    change (rstrip (String c (String c' r')))
      with (match rstrip (String c' r') with
            | EmptyString =>
                if is_space c then EmptyString else String c EmptyString
            | x => String c x
            end).
    by rewrite (IH H).
Qed.

Lemma strip_ends_clean s : ends_clean (strip s) = true.
Proof. apply lstrip_ends_clean, rstrip_ends_clean. Qed.

Lemma strip_starts_clean s : starts_clean (strip s) = true.
Proof. apply lstrip_starts_clean. Qed.

(** Stripping a stripped string changes nothing. *)
Lemma strip_idempotent s : strip (strip s) = strip s.
Proof.
  unfold strip at 1.
  rewrite (rstrip_clean (strip s) (strip_ends_clean s)).
  apply lstrip_clean, strip_starts_clean.
Qed.

(** ** Lower case *)








(** ** The pattern *)

Lemma space_not_word c : is_space c = true → is_word_char c = false.
Proof. by destruct c as [[] [] [] [] [] [] [] []]. Qed.




(** ** Splitting at the last dot *)

Lemma rsplit_dot_cases s :
  (contains_dot s = false ∧ rsplit_dot s = [s])
  ∨ (∃ h t, contains_dot s = true ∧ rsplit_dot s = [h; t]
       ∧ s = h +:+ "." +:+ t ∧ contains_dot t = false).
Proof.
  induction s as [|c r IH]; [by left|].
  simpl. destruct IH as [[Hn ->]|(h & t & Hd & -> & Hs & Ht)].
  - destruct (code c =? 46) eqn:Hc; simpl.
    + right. exists "", r. repeat split; try done.
      apply Nat.eqb_eq in Hc.
      assert (c = Ascii.ascii_of_nat 46) as ->.
      { destruct c as [[] [] [] [] [] [] [] []]; by try discriminate Hc. }
      done.
    + left. by rewrite Hn.
  - right. exists (String c h), t. rewrite Hd, orb_true_r.
    repeat split; try done. by rewrite Hs.
Qed.

Lemma contains_dot_app name ext : contains_dot (name +:+ "." +:+ ext) = true.
Proof.
  induction name as [|c r IH]; [done|].
  change (String c r +:+ "." +:+ ext) with (String c (r +:+ "." +:+ ext)).
  simpl. by rewrite IH, orb_true_r.
Qed.

Lemma rsplit_dot_app name ext :
  contains_dot ext = false → rsplit_dot (name +:+ "." +:+ ext) = [name; ext].
Proof.
  intros Hext. induction name as [|c r IH].
  - change ("" +:+ "." +:+ ext) with (String (Ascii.ascii_of_nat 46) ext).
    simpl.
    destruct (rsplit_dot_cases ext) as [[_ ->]|(h & t & Hd & _)]; [done|].
    congruence.
  - change (String c r +:+ "." +:+ ext) with (String c (r +:+ "." +:+ ext)).
    simpl. by rewrite IH.
Qed.

(** ** The form's row pairs *)

Lemma parse_pairs_elem firsts seconds a b :
  (a, b) ∈ parse_pairs firsts seconds
  ↔ ∃ i x y, firsts !! i = Some x ∧ seconds !! i = Some y
      ∧ a = strip x ∧ b = strip y ∧ (a ≠ "" ∨ b ≠ "").
Proof.
  unfold parse_pairs. rewrite list_elem_of_omap. split.
  - intros ([x y] & Hin & Hf). simpl in Hf.
    apply list_elem_of_lookup in Hin as [i Hi].
    apply lookup_zip_with_Some in Hi as (x' & y' & E & Hx & Hy).
    injection E as <- <-.
    destruct (nonempty (strip x) || nonempty (strip y)) eqn:Hne; [|done].
    injection Hf as <- <-.
    exists i, x, y. repeat split; try done.
    apply orb_true_iff in Hne as [H|H];
      unfold nonempty in H; apply negb_true_iff, String.eqb_neq in H; auto.
  - intros (i & x & y & Hx & Hy & -> & -> & Hne).
    exists (x, y). split.
    + apply list_elem_of_lookup. exists i.
      apply lookup_zip_with_Some. by exists x, y.
    + simpl.
      assert (nonempty (strip x) || nonempty (strip y) = true) as ->; [|done].
      apply orb_true_iff. unfold nonempty.
      destruct Hne as [H|H]; [left|right];
        by apply negb_true_iff, String.eqb_neq.
Qed.

Lemma omap_length_le {A B : Type} (f : A → option B) l :
  length (omap f l) ≤ length l.
Proof.
  induction l as [|x l IH]; [done|].
  change (omap f (x :: l))
    with (match f x with Some y => y :: omap f l | None => omap f l end).
  destruct (f x); simpl; lia.
Qed.

(** ** The field fallback *)

Lemma fill_field_lookup bpmn metadata field key :
  fill_field bpmn metadata field !! key
  = if decide (field = key) then
      match bpmn !! field with
      | Some v =>
          if nonempty (strip (default "" (metadata !! field)))
          then metadata !! key else Some v
      | None => metadata !! key
      end
    else metadata !! key.
Proof.
  unfold fill_field. destruct (bpmn !! field) as [v|]; [|by case_decide].
  destruct (nonempty (strip (default "" (metadata !! field)))); simpl.
  - by case_decide.
  - case_decide as E; [subst; apply lookup_insert_eq|by apply lookup_insert_ne].
Qed.

Lemma fill_field_lookup_ne bpmn metadata field key :
  field ≠ key → fill_field bpmn metadata field !! key = metadata !! key.
Proof. intros H. rewrite fill_field_lookup. by case_decide. Qed.

Lemma fill_field_lookup_eq bpmn metadata key :
  fill_field bpmn metadata key !! key
  = match bpmn !! key with
    | Some v =>
        if nonempty (strip (default "" (metadata !! key)))
        then metadata !! key else Some v
    | None => metadata !! key
    end.
Proof. rewrite fill_field_lookup. by case_decide. Qed.

(** What [fill_fields] leaves under a key. *)
Lemma fill_fields_lookup bpmn metadata key :
  fill_fields bpmn metadata !! key
  = if bool_decide (key ∈ simple_fields) then
      match bpmn !! key with
      | Some v =>
          if nonempty (strip (default "" (metadata !! key)))
          then metadata !! key else Some v
      | None => metadata !! key
      end
    else metadata !! key.
Proof.
  unfold fill_fields, simple_fields. cbn [foldl].
  destruct (decide (key = "process_name")) as [->|N1].
  { rewrite bool_decide_eq_true_2 by (by left).
    rewrite !(fill_field_lookup_ne _ _ _ "process_name") by done.
    apply fill_field_lookup_eq. }
  destruct (decide (key = "process_code")) as [->|N2].
  { rewrite bool_decide_eq_true_2 by (right; by left).
    rewrite !(fill_field_lookup_ne _ _ _ "process_code") by done.
    rewrite fill_field_lookup_eq.
    by rewrite !(fill_field_lookup_ne _ _ _ "process_code") by done. }
  destruct (decide (key = "purpose")) as [->|N3].
  { rewrite bool_decide_eq_true_2 by (do 2 right; by left).
    rewrite !(fill_field_lookup_ne _ _ _ "purpose") by done.
    rewrite fill_field_lookup_eq.
    by rewrite !(fill_field_lookup_ne _ _ _ "purpose") by done. }
  destruct (decide (key = "scope")) as [->|N4].
  { rewrite bool_decide_eq_true_2 by (do 3 right; by left).
    rewrite fill_field_lookup_eq.
    by rewrite !(fill_field_lookup_ne _ _ _ "scope") by done. }
  rewrite bool_decide_eq_false_2.
  - by rewrite !fill_field_lookup_ne by done.
  - intros Hin. repeat (apply elem_of_cons in Hin as [?|Hin]; [done|]).
    by apply elem_of_nil in Hin.
Qed.

End HandlersFacts.

(** * The request handlers: what a caller can rely on *)

Module HandlersSpec.
Import Handlers HandlersFacts.

Example set_user_trims_and_lowers :
  (set_user {["user_id" := "  Alice_01 "]} ∅).1 = Success "alice_01".
Proof. vm_compute. reflexivity. Qed.

Example set_user_rejects_inner_blank :
  (set_user {["user_id" := "al ice"]} ∅).1
  = Failure 400 "User ID can only contain letters, numbers, and underscores".
Proof. vm_compute. reflexivity. Qed.



Example output_name_samples :
  output_name <$> ["order.flow.bpmn"; "README"; ".bpmn"; "a."]
  = ["order.flow"; "README"; ""; "a"].
Proof. vm_compute. reflexivity. Qed.

(** X16.  The output name of an uploaded file is the file name without
    its last extension: for a name [name.ext] whose [ext] has no dot it
    is [name], a name without a dot is kept whole, and in every case the
    file name is the output name followed by nothing or by a dot and a
    dotless rest.  The save dialog proposes the output name with ".docx",
    and falls back to the form's process name (or "Generated") only when
    the output name is empty. *)
Theorem output_name_drops_extension :
  (∀ name ext, contains_dot ext = false →
     output_name (name +:+ "." +:+ ext) = name)
  ∧ (∀ filename, contains_dot filename = false →
       output_name filename = filename)
  ∧ (∀ filename,
       filename = output_name filename
       ∨ ∃ ext, contains_dot ext = false
           ∧ filename = output_name filename +:+ "." +:+ ext)
  ∧ (∀ filename metadata,
       initial_file filename metadata
       = (if nonempty (output_name filename) then output_name filename
          else default "Generated" (metadata !! "process_name")) +:+ ".docx").
Proof.
  split; [|split; [|split]].
  - intros name ext Hext. unfold output_name.
    by rewrite contains_dot_app, rsplit_dot_app.
  - intros filename Hn. unfold output_name. by rewrite Hn.
  - intros filename. unfold output_name.
    destruct (rsplit_dot_cases filename)
      as [[-> _]|(h & t & -> & -> & Hs & Ht)]; [by left|].
    right. exists t. by split.
  - intros filename metadata. unfold initial_file.
    by destruct (nonempty (output_name filename)).
Qed.

Lemma output_name_drops_extension_witness :
  output_name ("order.flow" +:+ "." +:+ "bpmn") = "order.flow".
Proof.
  apply (proj1 output_name_drops_extension "order.flow" "bpmn").
  reflexivity.
Defined.

Example parse_pairs_sample :
  parse_pairs [" SOP "; "  "; "KPI"; "x"] ["Standard procedure"; " "; ""]
  = [("SOP", "Standard procedure"); ("KPI", "")].
Proof. vm_compute. reflexivity. Qed.

(** X17.  The rows read from the form's paired inputs (abbreviations,
    references, policies) are exactly the pairs at the positions both
    lists have, stripped of surrounding whitespace, whose two fields are
    not both blank: every row kept is already stripped and has a
    non-empty field, and there are no more rows than the shorter list has
    entries. *)
Theorem parse_pairs_keeps_filled_rows firsts seconds :
  (∀ a b, (a, b) ∈ parse_pairs firsts seconds
     ↔ ∃ i x y, firsts !! i = Some x ∧ seconds !! i = Some y
         ∧ a = strip x ∧ b = strip y ∧ (a ≠ "" ∨ b ≠ ""))
  ∧ (∀ a b, (a, b) ∈ parse_pairs firsts seconds →
       strip a = a ∧ strip b = b ∧ (a ≠ "" ∨ b ≠ ""))
  ∧ length (parse_pairs firsts seconds)
    ≤ min (length firsts) (length seconds).
Proof.
  split; [|split].
  - intros a b. apply parse_pairs_elem.
  - intros a b Hin.
    apply parse_pairs_elem in Hin as (i & x & y & _ & _ & -> & -> & Hne).
    by rewrite !strip_idempotent.
  - unfold parse_pairs. etrans; [apply omap_length_le|].
    by rewrite length_zip_with.
Qed.

Example fill_fields_sample :
  (λ m : gmap string string, (m !!.) <$> simple_fields)
    (fill_fields
       (<["process_name" := "Onboarding"]> (<["scope" := "HR"]> ∅))
       (<["process_name" := "  "]> (<["scope" := " All staff "]>
          (<["template" := "sana"]> ∅))))
  = [Some "Onboarding"; None; None; Some " All staff "].
Proof. vm_compute. reflexivity. Qed.

(** X18.  After the field fallback of [generate_sop], each of the fields
    process_name, process_code, purpose and scope holds the form's value,
    untouched, when that is not blank; the BPMN value when the form's
    value is blank or missing and the BPMN metadata have the field; and
    what the form had otherwise.  No other key of the form is changed. *)
Theorem fill_fields_prefers_form bpmn metadata key :
  let form_value := strip (default "" (metadata !! key)) in
  (key ∉ simple_fields ∨ nonempty form_value = true ∨ bpmn !! key = None →
   fill_fields bpmn metadata !! key = metadata !! key)
  ∧ (∀ v, key ∈ simple_fields → nonempty form_value = false →
          bpmn !! key = Some v →
     fill_fields bpmn metadata !! key = Some v).
Proof.
  intros form_value. rewrite fill_fields_lookup. split.
  - intros [Hout|[Hform|Hbpmn]].
    + by rewrite bool_decide_eq_false_2.
    + unfold form_value in Hform. rewrite Hform.
      case_bool_decide; [|done]. by destruct (bpmn !! key).
    + rewrite Hbpmn. by case_bool_decide.
  - intros v Hin Hform Hbpmn. rewrite bool_decide_eq_true_2 by done.
    unfold form_value in Hform. by rewrite Hbpmn, Hform.
Qed.

Lemma fill_fields_prefers_form_witness :
  fill_fields (<["scope" := "HR"]> ∅) (<["scope" := "  "]> ∅) !! "scope"
  = Some "HR".
Proof.
  apply (proj2 (fill_fields_prefers_form (<["scope" := "HR"]> ∅)
                  (<["scope" := "  "]> ∅) "scope") "HR").
  - do 3 right. left.
  - vm_compute. reflexivity.
  - vm_compute. reflexivity.
Defined.

Example references_sample :
  references_for [" "] [""]
    (fill_fields (<["process_code" := "HR-01"]> ∅)
       (<["process_name" := " Hiring "]> ∅))
    (<["process_code" := "HR-01"]> ∅) ["HR"; "Finance"]
  = [("N/A", "HR Approval"); ("N/A", "Finance Approval");
     ("DGM- HR-01", "Hiring Process Diagram        Notations Meaning")].
Proof. vm_compute. reflexivity. Qed.



End HandlersSpec.
